(** * SVG element tree and segment geometry (svg.hpp): a shallow embedding

    The development follows the header [src/svg.hpp].

    Definitions:
    - [Meth]        the monad in which member functions run: a function may
                    write [this] and may throw, and what it wrote before a
                    throw stays written;
    - [StdMap]      the [std::map<std::string, std::string>] of attributes;
    - [Strtof]      the text grammar accepted by [std::stof];
    - [FloatArith]  the arithmetic the geometry code is written against;
    - [Object]      one node of the tree;
    - [Line]        the accessors and geometry of [class Line];
    - [IEEE]        binary32 and binary64 with [std::stof] and
                    [std::to_string], the arithmetic of the C++ code
                    (expressions evaluated in the precision of their type);
    - [Element], [Path], the constructors, the store of heap nodes,
      [add_child] and [to_string].

    Properties: the attribute map, reads and writes of nodes, the geometry
    on segments, paths, serialisation, the children of a node, and the
    rounding of binary32 and binary64 that the length of a segment goes
    through. *)

From Stdlib Require Import ZArith NArith List Bool Lia String Ascii.
From Stdlib Require Import DecimalString.
From Stdlib Require Import Floats.SpecFloat.
Import ListNotations.

Local Open Scope list_scope.
Local Open Scope string_scope.

(** ** Outcomes of member functions *)

(** What a call can end in besides a value.  [invalid_argument] and
    [out_of_range] are the exceptions of [std::stof]; [bad_pointer] stands for
    dereferencing a child pointer that owns no node; [out_of_fuel] is not a
    C++ outcome: it marks a recursion budget that was too small. *)
Inductive exn : Type :=
| invalid_argument
| out_of_range
| bad_pointer
| out_of_fuel.

Inductive Result (A : Type) : Type :=
| Ok (a : A)
| Throw (e : exn).
Arguments Ok {A} a.
Arguments Throw {A} e.

(** State and exceptions: a write made before a throw stays made. *)
Definition Meth (S A : Type) : Type := S -> S * Result A.

Definition ret {S A} (a : A) : Meth S A := fun s => (s, Ok a).

Definition bind {S A B} (c : Meth S A) (k : A -> Meth S B) : Meth S B :=
  fun s =>
    match c s with
    | (s', Ok a) => k a s'
    | (s', Throw e) => (s', Throw e)
    end.

Definition lift {S A} (r : Result A) : Meth S A := fun s => (s, r).

Definition get {S} : Meth S S := fun s => (s, Ok s).

Declare Scope meth_scope.
Delimit Scope meth_scope with meth.
Notation "x <- c ;; k" := (bind c (fun x => k))
  (at level 61, c at next level, right associativity) : meth_scope.
Notation "c ;;; k" := (bind c (fun _ => k))
  (at level 61, right associativity) : meth_scope.
Local Open Scope meth_scope.

(** ** [std::map<std::string, std::string>]

    Keys are kept in increasing order of [String.compare] (bytes compared as
    unsigned numbers, a proper prefix first), which is the order of
    [std::less<std::string>] and hence the order in which iterators visit the
    entries. *)
Module StdMap.

Definition t : Type := list (string * string).

Definition empty : t := [].

(** [m.find(k)], [None] for [m.end()]. *)
Fixpoint find (k : string) (m : t) : option string :=
  match m with
  | [] => None
  | (k', v') :: m' => if String.eqb k k' then Some v' else find k m'
  end.

(** [m[k] = v]. *)
Fixpoint assign (k v : string) (m : t) : t :=
  match m with
  | [] => [(k, v)]
  | (k', v') :: m' =>
      match String.compare k k' with
      | Eq => (k, v) :: m'
      | Lt => (k, v) :: (k', v') :: m'
      | Gt => (k', v') :: assign k v m'
      end
  end.

(** [m[k]] read as an rvalue: the mapped string, and the map afterwards.
    An absent key is first inserted with an empty string. *)
Definition index (k : string) (m : t) : t * string :=
  match find k m with
  | Some v => (m, v)
  | None => (assign k "" m, "")
  end.

(** Construction from an initializer list: entries are inserted in turn
    and an entry whose key is already there is dropped. *)
Definition of_list (l : list (string * string)) : t :=
  fold_left
    (fun m kv => match find (fst kv) m with
                 | Some _ => m
                 | None => assign (fst kv) (snd kv) m
                 end)
    l empty.

Fixpoint keys_above (k : string) (m : t) : Prop :=
  match m with
  | [] => True
  | (k', _) :: m' => String.compare k k' = Lt /\ keys_above k m'
  end.

(** Strictly increasing keys: the shape of every map the code builds. *)
Fixpoint sorted (m : t) : Prop :=
  match m with
  | [] => True
  | (k, _) :: m' => keys_above k m' /\ sorted m'
  end.

End StdMap.

(** ** The text accepted by [std::stof]

  [std::stof] hands the text to [strtof]: white space is skipped, then an
  optional sign, then the longest of: a decimal number with optional
  exponent, a hexadecimal number with optional binary exponent, [inf] or
  [infinity], [nan] or [nan(...)] (letters in any case).  What follows the
  number is ignored. *)
Module Strtof.

Inductive literal : Type :=
| LDec (neg : bool) (m : N) (e10 : Z)   (* (-1)^neg * m * 10^e10 *)
| LHex (neg : bool) (m : N) (e2 : Z)    (* (-1)^neg * m * 2^e2   *)
| LInf (neg : bool)
| LNan.

Definition is_space (c : ascii) : bool :=
  let n := N_of_ascii c in
  (N.eqb n 32 || (N.leb 9 n && N.leb n 13))%bool.

Fixpoint skip_space (s : string) : string :=
  match s with
  | String c r => if is_space c then skip_space r else s
  | EmptyString => s
  end.

Definition dec_digit (c : ascii) : option N :=
  let n := N_of_ascii c in
  if (N.leb 48 n && N.leb n 57)%bool then Some (n - 48)%N else None.

Definition hex_digit (c : ascii) : option N :=
  let n := N_of_ascii c in
  if (N.leb 48 n && N.leb n 57)%bool then Some (n - 48)%N
  else if (N.leb 97 n && N.leb n 102)%bool then Some (n - 87)%N
  else if (N.leb 65 n && N.leb n 70)%bool then Some (n - 55)%N
  else None.

(** Reads digits in [base], folding them into [acc]; returns the number
    read, how many digits it had, and the rest of the text. *)
Fixpoint digits (digit : ascii -> option N) (base : N) (s : string)
         (acc : N) (cnt : nat) : N * nat * string :=
  match s with
  | String c r =>
      match digit c with
      | Some d => digits digit base r (base * acc + d)%N (S cnt)
      | None => (acc, cnt, s)
      end
  | EmptyString => (acc, cnt, s)
  end.

Definition lower (c : ascii) : ascii :=
  let n := N_of_ascii c in
  if (N.leb 65 n && N.leb n 90)%bool then ascii_of_N (n + 32) else c.

(** [s] starts with the lower-case word [w], letters of [s] in any case. *)
Fixpoint starts_with (w s : string) : bool :=
  match w, s with
  | EmptyString, _ => true
  | String a w', String c s' => (Ascii.eqb a (lower c) && starts_with w' s')%bool
  | String _ _, EmptyString => false
  end.

(** The exponent part [e+ddd] / [p-ddd] (sign optional); it counts only with a digit. *)
Definition exponent (mark : ascii) (s : string) : Z :=
  match s with
  | String c r =>
      if Ascii.eqb (lower c) mark then
        let '(neg, r') :=
          match r with
          | String "-" r' => (true, r')
          | String "+" r' => (false, r')
          | _ => (false, r)
          end in
        let '(e, cnt, _) := digits dec_digit 10 r' 0%N 0%nat in
        match cnt with
        | O => 0%Z
        | S _ => if neg then (- Z.of_N e)%Z else Z.of_N e
        end
      else 0%Z
  | EmptyString => 0%Z
  end.

(** Mantissa [ddd.ddd] in [base]: value of all digits read as one integer,
    number of digits after the point, total number of digits, rest. *)
Definition mantissa (digit : ascii -> option N) (base : N) (s : string)
  : N * nat * nat * string :=
  let '(ip, n1, r1) := digits digit base s 0%N 0%nat in
  match r1 with
  | String "." r2 =>
      let '(m, n2, r3) := digits digit base r2 ip 0%nat in
      (m, n2, (n1 + n2)%nat, r3)
  | _ => (ip, 0%nat, n1, r1)
  end.

Definition unsigned_literal (neg : bool) (s : string) : option literal :=
  if starts_with "inf" s then Some (LInf neg)
  else if starts_with "nan" s then Some LNan
  else
    let dec :=
      let '(m, nfrac, ndig, r) := mantissa dec_digit 10 s in
      match ndig with
      | O => None
      | S _ => Some (LDec neg m (exponent "e" r - Z.of_nat nfrac))
      end in
    match s with
    | String "0" (String x r0) =>
        if Ascii.eqb (lower x) "x" then
          let '(m, nfrac, ndig, r) := mantissa hex_digit 16 r0 in
          match ndig with
          | O => dec
          | S _ => Some (LHex neg m (exponent "p" r - 4 * Z.of_nat nfrac))
          end
        else dec
    | _ => dec
    end.

Definition parse (s : string) : option literal :=
  match skip_space s with
  | String "-" r => unsigned_literal true r
  | String "+" r => unsigned_literal false r
  | r => unsigned_literal false r
  end.

End Strtof.

(** ** The arithmetic of the geometry code

  [class Line] computes in [float], with the squares, the sum under the
  root and the root itself in [double] (the [pow] and [sqrt] of <math.h>
  applied to an [int] exponent promote to [double]).  The interface lists
  exactly the operations the code uses; what follows from the shape of the
  code alone is stated for every arithmetic, the rest for IEEE arithmetic. *)
Class FloatArith : Type := {
float : Type;
double : Type;
f_add : float -> float -> float;
f_sub : float -> float -> float;
f_mul : float -> float -> float;
f_div : float -> float -> float;
f_abs : float -> float;                (* std::abs(float) *)
f_eq : float -> float -> bool;         (* a == b *)
f_lt : float -> float -> bool;         (* a < b  *)
d_add : double -> double -> double;
d_mul : double -> double -> double;
d_div : double -> double -> double;
d_sqrt : double -> double;             (* std::sqrt(double) *)
f_of_int : Z -> float;                 (* int -> float *)
d_of_int : Z -> double;                (* int -> double *)
f2d : float -> double;                 (* promotion float -> double *)
d2f : double -> float;                 (* conversion double -> float *)
stof : string -> Result float          (* std::stof *)
}.

(** ** Nodes *)

(** The concrete classes deriving from [Element]. *)
Inductive Kind : Type := KSVG | KPath | KText | KGroup | KLine | KRect | KCircle.

(** [tag()] of each class. *)
Definition tag (k : Kind) : string :=
match k with
| KSVG => "svg"
| KPath => "path"
| KText => "text"
| KGroup => "g"
| KLine => "line"
| KRect => "rect"
| KCircle => "circle"
end.

(** A child pointer: the address of a node in the store of heap nodes. *)
Definition addr : Type := nat.

(** One node: the members of [Element], its dynamic class, and the two
  private members of [Path] (read only by the member functions of
  [Path]). *)
Record Object {FA : FloatArith} : Type := mkObject {
kind : Kind;
attr : StdMap.t;
content : string;
children : list addr;
x_start : float;
y_start : float
}.

Section Node.
Context {FA : FloatArith}.

Definition with_attr (o : Object) (m : StdMap.t) : Object :=
  mkObject _ (kind o) m (content o) (children o) (x_start o) (y_start o).

Definition with_children (o : Object) (cs : list addr) : Object :=
  mkObject _ (kind o) (attr o) (content o) cs (x_start o) (y_start o).

Definition with_start (o : Object) (x y : float) : Object :=
  mkObject _ (kind o) (attr o) (content o) (children o) x y.

(** [this->attr[key]] read as an rvalue. *)
Definition attr_index (key : string) : Meth Object string :=
  fun o =>
    let '(m, v) := StdMap.index key (attr o) in (with_attr o m, Ok v).

(** [this->attr.find(key) != this->attr.end()] *)
Definition attr_has (key : string) : Meth Object bool :=
  fun o =>
    (o, Ok match StdMap.find key (attr o) with Some _ => true | None => false end).

(** [this->attr[key] = v] *)
Definition attr_assign (key v : string) : Meth Object unit :=
  fun o => (with_attr o (StdMap.assign key v (attr o)), Ok tt).

End Node.

(** ** [class Line]

  Operands are evaluated left to right (C++ leaves the order of the two
  operands of [-], [/], [+] and [!=] open; it shows only in which absent
  attribute is met first).  [&&] and [||] evaluate their right operand
  only when needed. *)
Module Line.
Section Line.
Context {FA : FloatArith}.

(** [pow(x, 2)]: the square, in [double]. *)
Definition pow2 (x : double) : double := d_mul x x.

Definition x1 : Meth Object float := s <- attr_index "x1" ;; lift (stof s).
Definition x2 : Meth Object float := s <- attr_index "x2" ;; lift (stof s).
Definition y1 : Meth Object float := s <- attr_index "y1" ;; lift (stof s).
Definition y2 : Meth Object float := s <- attr_index "y2" ;; lift (stof s).

Definition get_slope : Meth Object float :=
  d <- y2 ;; c <- y1 ;; b <- x2 ;; a <- x1 ;;
  ret (f_div (f_sub d c) (f_sub b a)).

Definition get_width : Meth Object float :=
  b <- x2 ;; a <- x1 ;; ret (f_abs (f_sub b a)).

Definition get_height : Meth Object float :=
  d <- y2 ;; c <- y1 ;; ret (f_abs (f_sub d c)).

Definition get_length : Meth Object float :=
  w <- get_width ;; h <- get_height ;;
  ret (d2f (d_sqrt (d_add (pow2 (f2d w)) (pow2 (f2d h))))).

(** [a > b] *)
Definition f_gt (a b : float) : bool := f_lt b a.

(** [(x_a > x1() && x_a > x2()) || (x_a < x1() && x_a < x2())] *)
Definition outside (x_a : float) : Meth Object bool :=
  a <- x1 ;;
  above <- (if f_gt x_a a then b <- x2 ;; ret (f_gt x_a b) else ret false) ;;
  if above : bool then ret true
  else
    a' <- x1 ;;
    if f_lt x_a a' then b' <- x2 ;; ret (f_lt x_a b') else ret false.

Definition along (percent : float) : Meth Object (float * float) :=
  a <- x1 ;; b <- x2 ;;
  if negb (f_eq a b) then
    len <- get_length ;;
    let length := f_mul percent len in
    m <- get_slope ;;
    let discrim :=
      d2f (d_sqrt (d_mul (d_mul (d_of_int 4) (pow2 (f2d length)))
                         (d_div (d_of_int 1)
                                (d_add (d_of_int 1) (pow2 (f2d m)))))) in
    a1 <- x1 ;;
    let x_a := f_div (f_add (f_mul (f_of_int 2) a1) discrim) (f_of_int 2) in
    a2 <- x1 ;;
    let x_b := f_div (f_sub (f_mul (f_of_int 2) a2) discrim) (f_of_int 2) in
    out <- outside x_a ;;
    let x_pos := if out : bool then x_b else x_a in
    m' <- get_slope ;; a3 <- x1 ;; c <- y1 ;;
    ret (x_pos, f_add (f_mul m' (f_sub x_pos a3)) c)
  else
    x_pos <- x1 ;;
    c <- y1 ;; d <- y2 ;;
    if f_gt c d then
      c' <- y1 ;; len <- get_length ;;
      ret (x_pos, f_sub c' (f_mul percent len))
    else
      c' <- y1 ;; len <- get_length ;;
      ret (x_pos, f_add c' (f_mul percent len)).

End Line.
End Line.

(** ** IEEE-754 arithmetic: [float] is binary32, [double] is binary64

  Values are [spec_float]s kept canonical for their format; operations
  round to nearest, ties to even.  [spec_float] has one NaN: the sign and
  payload of a NaN are not tracked. *)
Module IEEE.

Definition prec32 : Z := 24.
Definition emax32 : Z := 128.
Definition prec64 : Z := 53.
Definition emax64 : Z := 1024.

(** The value of [x] rounded into the format [(prec, emax)]. *)
Definition convert (prec emax : Z) (x : spec_float) : spec_float :=
  match x with
  | S754_finite s m e => binary_round prec emax s m e
  | _ => x
  end.

Definition of_int (prec emax : Z) (z : Z) : spec_float :=
  binary_normalize prec emax z 0 false.

(** The quotient [num / den] of two positive integers, rounded once. *)
Definition round_ratio (prec emax : Z) (neg : bool) (num den : positive)
  : spec_float :=
  SFdiv prec emax (S754_finite neg num 0) (S754_finite false den 0).

(** [m' * 2^e'] is exactly [num / den]. *)
Definition is_exact (num den m' : positive) (e' : Z) : bool :=
  (Z.pos num * 2 ^ Z.max 0 (- e') =? Z.pos m' * 2 ^ Z.max 0 e' * Z.pos den)%Z.

(** [num / den] counts as tiny: rounded to [prec] digits with no bound on
    the exponent it stays below the least normal number
    [2 ^ (emin + prec - 1)], which is to say that it lies below the midpoint
    [(2 ^ (prec + 1) - 1) * 2 ^ (emin - 2)] of that number and the number
    [prec] digits put before it (at the midpoint the tie goes to the even
    mantissa, the normal number).  This is tininess detected after
    rounding, as [strtof] does on x86-64. *)
Definition tiny (prec emax : Z) (num den : positive) : bool :=
  (Z.pos num * 2 ^ (2 - emin prec emax) <? (2 ^ (prec + 1) - 1) * Z.pos den)%Z.

(** [strtof] reports a range error when the result overflows, and when the
    value is tiny and the result inexact; [std::stof] turns the report into
    [std::out_of_range]. *)
Definition checked (prec emax : Z) (neg : bool) (num den : positive)
  : Result spec_float :=
  match round_ratio prec emax neg num den with
  | S754_finite s m' e' =>
      if (tiny prec emax num den && negb (is_exact num den m' e'))%bool
      then Throw out_of_range
      else Ok (S754_finite s m' e')
  | S754_zero _ | S754_infinity _ | S754_nan => Throw out_of_range
  end.

Definition of_literal (prec emax : Z) (l : Strtof.literal) : Result spec_float :=
  match l with
  | Strtof.LNan => Ok S754_nan
  | Strtof.LInf neg => Ok (S754_infinity neg)
  | Strtof.LDec neg N0 _ | Strtof.LHex neg N0 _ => Ok (S754_zero neg)
  | Strtof.LDec neg (Npos m) e10 =>
      if (0 <=? e10)%Z
      then checked prec emax neg (m * Z.to_pos (10 ^ e10)) 1
      else checked prec emax neg m (Z.to_pos (10 ^ (- e10)))
  | Strtof.LHex neg (Npos m) e2 =>
      if (0 <=? e2)%Z
      then checked prec emax neg (m * Z.to_pos (2 ^ e2)) 1
      else checked prec emax neg m (Z.to_pos (2 ^ (- e2)))
  end.

(** [std::stof]: no number at the start of the text is
    [std::invalid_argument]. *)
Definition std_stof (s : string) : Result spec_float :=
  match Strtof.parse s with
  | None => Throw invalid_argument
  | Some l => of_literal prec32 emax32 l
  end.

#[global] Instance arith : FloatArith := {|
  float := spec_float;
  double := spec_float;
  f_add := SFadd prec32 emax32;
  f_sub := SFsub prec32 emax32;
  f_mul := SFmul prec32 emax32;
  f_div := SFdiv prec32 emax32;
  f_abs := SFabs;
  f_eq := SFeqb;
  f_lt := SFltb;
  d_add := SFadd prec64 emax64;
  d_mul := SFmul prec64 emax64;
  d_div := SFdiv prec64 emax64;
  d_sqrt := SFsqrt prec64 emax64;
  f_of_int := of_int prec32 emax32;
  d_of_int := of_int prec64 emax64;
  f2d := convert prec64 emax64;
  d2f := convert prec32 emax32;
  stof := std_stof
|}.

(** [NAN] of <math.h>. *)
Definition NAN : float := S754_nan.

(** *** [std::to_string] *)

Definition dec (n : N) : string := NilZero.string_of_uint (N.to_uint n).

(** [std::to_string(int)], the format [%d]. *)
Definition to_string_int (z : Z) : string :=
  match z with
  | Zneg p => "-" ++ dec (Npos p)
  | _ => dec (Z.to_N z)
  end.

(** [num / den] rounded to the nearest integer, ties to even. *)
Definition round_half_even (num den : N) : N :=
  let q := (num / den)%N in
  let r := (num mod den)%N in
  match (2 * r ?= den)%N with
  | Lt => q
  | Gt => (q + 1)%N
  | Eq => if N.even q then q else (q + 1)%N
  end.

(** [n] millionths printed with six digits after the point. *)
Definition fixed6 (n : N) : string :=
  dec (n / 1000000) ++ "." ++
  match dec (1000000 + n mod 1000000) with
  | String _ frac => frac
  | EmptyString => EmptyString
  end.

Definition sign_text (s : bool) : string := if s then "-" else "".

(** [std::to_string(float)] and [std::to_string(double)], the format [%f]
    (a [float] is passed as the [double] of the same value).  The one NaN of
    [spec_float] prints as the NaN of the macro [NAN] does; [printf] puts a
    minus sign before a NaN whose sign bit is set, a bit [spec_float] does
    not hold. *)
Definition to_string_fp (x : spec_float) : string :=
  match x with
  | S754_nan => "nan"
  | S754_infinity s => sign_text s ++ "inf"
  | S754_zero s => sign_text s ++ "0.000000"
  | S754_finite s m e =>
      sign_text s ++
      fixed6 (match e with
              | Zneg p => round_half_even (Npos m * 1000000) (2 ^ Npos p)
              | _ => Npos m * 2 ^ Z.to_N e * 1000000
              end)%N
  end.

End IEEE.

(** ** [class Element] and its subclasses, in IEEE arithmetic *)

(** The characters the header writes as escapes. *)
Definition quote : string := String "034"%char EmptyString.
Definition newline : string := String "010"%char EmptyString.
Definition tab : ascii := "009"%char.

(** The argument kinds of the templates: [set_attr<T>] takes any [T] that
    [std::to_string] accepts (integers print as [%d], [float] and [double]
    as [%f]) and has two specialisations for text. *)
Inductive value : Type :=
| VInt (z : Z)
| VFloat (f : float)
| VDouble (d : double)
| VText (s : string).

(** The text stored for a value: [std::to_string(value)], or the text
    itself in the two specialisations. *)
Definition value_text (v : value) : string :=
  match v with
  | VInt z => IEEE.to_string_int z
  | VFloat f => IEEE.to_string_fp f
  | VDouble d => IEEE.to_string_fp d
  | VText s => s
  end.

(** The arithmetic [T] of [Path::start<T>] and [Path::line_to<T>]. *)
Inductive num : Type :=
| NInt (z : Z)
| NFloat (f : float)
| NDouble (d : double).

Definition num_text (x : num) : string :=
  match x with
  | NInt z => IEEE.to_string_int z
  | NFloat f => IEEE.to_string_fp f
  | NDouble d => IEEE.to_string_fp d
  end.

(** The conversion in [this->x_start = x]. *)
Definition num_float (x : num) : float :=
  match x with
  | NInt z => f_of_int z
  | NFloat f => f
  | NDouble d => d2f d
  end.

Module Element.

(** [set_attr(key, value)]; the result is [*this]. *)
Definition set_attr (key : string) (v : value) : Meth Object Object :=
  attr_assign key (value_text v) ;;; get.

(** [Element::get_width()] *)
Definition get_width : Meth Object float :=
  has <- attr_has "width" ;;
  if has : bool then s <- attr_index "width" ;; lift (stof s)
  else ret IEEE.NAN.

(** [Element::get_height()] *)
Definition get_height : Meth Object float :=
  has <- attr_has "height" ;;
  if has : bool then s <- attr_index "height" ;; lift (stof s)
  else ret IEEE.NAN.

(** [Element(_attr)]: a node of class [k] without children or content.
    No class but [Path] has start members; a [Path] is never built by
    this constructor. *)
Definition make (k : Kind) (m : StdMap.t) : Object :=
  mkObject _ k m "" [] (S754_zero false) (S754_zero false).

End Element.

(** The virtual calls [node.get_width()] and [node.get_height()]: [Line]
  overrides both. *)
Definition get_width : Meth Object float :=
o <- get ;;
match kind o with
| KLine => Line.get_width
| _ => Element.get_width
end.

Definition get_height : Meth Object float :=
o <- get ;;
match kind o with
| KLine => Line.get_height
| _ => Element.get_height
end.

Module Path.

(** [Path()]: no attribute; the two start members are not initialised and
    hold whatever [x0], [y0] the memory held. *)
Definition make (x0 y0 : float) : Object :=
  mkObject _ KPath StdMap.empty "" [] x0 y0.

Definition start (x y : num) : Meth Object unit :=
  attr_assign "d" ("M " ++ num_text x ++ " " ++ num_text y) ;;;
  (fun o => (with_start o (num_float x) (num_float y), Ok tt)).

Definition line_to (x y : num) : Meth Object unit :=
  has <- attr_has "d" ;;
  if negb has then start x y
  else
    d <- attr_index "d" ;;
    attr_assign "d" (d ++ (" L " ++ num_text x ++ " " ++ num_text y)).

(** [line_to(std::pair<float, float>)] *)
Definition line_to_pair (coord : float * float) : Meth Object unit :=
  line_to (NFloat (fst coord)) (NFloat (snd coord)).

Definition to_origin : Meth Object unit :=
  o <- get ;; line_to (NFloat (x_start o)) (NFloat (y_start o)).

End Path.

(** The constructors of the other classes. *)
Definition SVG_default : Object :=
  Element.make KSVG (StdMap.of_list [("xmlns", "http://www.w3.org/2000/svg")]).

Definition Group_default : Object := Element.make KGroup StdMap.empty.

Definition Line_default : Object := Element.make KLine StdMap.empty.

(** [Line(x1, x2, y1, y2)]: the parameters come in this order. *)
Definition Line_make (x1 x2 y1 y2 : float) : Object :=
  Element.make KLine
    (StdMap.of_list [("x1", IEEE.to_string_fp x1); ("x2", IEEE.to_string_fp x2);
                     ("y1", IEEE.to_string_fp y1); ("y2", IEEE.to_string_fp y2)]).

Definition Rect_default : Object := Element.make KRect StdMap.empty.

Definition Rect_make (x y width height : float) : Object :=
  Element.make KRect
    (StdMap.of_list [("x", IEEE.to_string_fp x); ("y", IEEE.to_string_fp y);
                     ("width", IEEE.to_string_fp width);
                     ("height", IEEE.to_string_fp height)]).

Definition Circle_make (cx cy radius : float) : Object :=
  Element.make KCircle
    (StdMap.of_list [("cx", IEEE.to_string_fp cx); ("cy", IEEE.to_string_fp cy);
                     ("r", IEEE.to_string_fp radius)]).

(** [Text(x, y, _content)] *)
Definition Text_make (x y : float) (text : string) : Object :=
  let o := Element.make KText StdMap.empty in
  let o := fst (Element.set_attr "x" (VText (IEEE.to_string_fp x)) o) in
  let o := fst (Element.set_attr "y" (VText (IEEE.to_string_fp y)) o) in
  mkObject _ (kind o) (attr o) text (children o) (x_start o) (y_start o).

(** ** The heap of nodes

    [std::make_shared] places a node at a new address; an address is an index
    into the store and nodes are never freed.  A caller's own node lives in
    the same store, so that one can speak of writing it after a call. *)
Definition Store : Type := list Object.

Definition deref (p : addr) : Meth Store Object :=
  fun st =>
    (st, match nth_error st p with Some o => Ok o | None => Throw bad_pointer end).

Fixpoint update (p : addr) (o : Object) (st : Store) : Store :=
  match st, p with
  | [], _ => []
  | _ :: st', O => o :: st'
  | o' :: st', S p' => o' :: update p' o st'
  end.

(** A write through a pointer. *)
Definition store (p : addr) (o : Object) : Meth Store unit :=
  fun st =>
    match nth_error st p with
    | Some _ => (update p o st, Ok tt)
    | None => (st, Throw bad_pointer)
    end.

(** [std::make_shared<T>(node)]: a copy of [node] at a new address.  The
    copy constructor copies member by member: the children of the copy are
    the same pointers. *)
Definition make_shared (node : Object) : Meth Store addr :=
  fun st => ((st ++ [node])%list, Ok (List.length st)).

(** [this->add_child(node)] with one argument; the result is
    [children.back().get()]. *)
Definition add_child (this : addr) (node : Object) : Meth Store addr :=
  c <- make_shared node ;;
  o <- deref this ;;
  store this (with_children o (children o ++ [c])%list) ;;;
  ret c.

(** [this->add_child(node, args...)]: the first, then the rest. *)
Fixpoint add_children (this : addr) (nodes : list Object) : Meth Store unit :=
  match nodes with
  | [] => ret tt
  | node :: args => add_child this node ;;; add_children this args
  end.

(** *** Serialisation *)

(** [std::string(indent_level, '\t')] *)
Definition indentation (indent_level : N) : string :=
  string_of_list_ascii (repeat tab (N.to_nat indent_level)).

(** [indent_level + 1] in [size_t]. *)
Definition next_level (indent_level : N) : N := ((indent_level + 1) mod 2 ^ 64)%N.

(** The macro [to_string_attrib].  Its statement has the shape
    [ret += a + b + c + d + it->second += e]: the chain of [+] binds tighter
    than [+=] and is the left operand of the inner [+=], so the closing quote
    [e] is appended to the temporary the chain builds, that temporary is
    appended to [ret], and the entry of the map is only read. *)
Definition to_string_attrib (m : StdMap.t) (ret : string) : string :=
  fold_left
    (fun ret it => ret ++ ((" " ++ fst it ++ "=" ++ quote ++ snd it) ++ quote))
    m ret.

(** The loop over [children]: each child, called at [indent_level + 1],
    contributes its text and a line feed to [ret]. *)
Fixpoint each_child (call : addr -> Meth Store string) (cs : list addr)
         (ret0 : string) : Meth Store string :=
  match cs with
  | [] => ret ret0
  | c :: cs' => s <- call c ;; each_child call cs' (ret0 ++ (s ++ newline))
  end.

(** [children.empty()] *)
Definition empty {A : Type} (l : list A) : bool :=
  match l with
  | [] => true
  | _ :: _ => false
  end.

(** [Text::to_string] *)
Definition Text_to_string (o : Object) (indent_level : N) : string :=
  to_string_attrib (attr o) (indentation indent_level ++ "<text")
  ++ (">" ++ content o ++ "</text>").

(** The virtual call [p->to_string(indent_level)].  [fuel] bounds the depth
    of the calls: the store may hold a cycle, on which the C++ recursion
    does not end. *)
Fixpoint to_string (fuel : nat) (this : addr) (indent_level : N)
  : Meth Store string :=
  match fuel with
  | O => lift (Throw out_of_fuel)
  | S fuel' =>
      o <- deref this ;;
      match kind o with
      | KText => ret (Text_to_string o indent_level)
      | k =>
          let indent := indentation indent_level in
          let ret0 := to_string_attrib (attr o) (indent ++ "<" ++ tag k) in
          if negb (empty (children o)) then
            body <- each_child
                      (fun c => to_string fuel' c (next_level indent_level))
                      (children o) (ret0 ++ (">" ++ newline)) ;;
            ret (body ++ (indent ++ "</" ++ tag k ++ ">"))
          else ret (ret0 ++ " />")
      end
  end.

(** Two calls in a row, as in [a = p->to_string(n); b = p->to_string(n);]. *)
Definition to_string_twice (fuel : nat) (this : addr) (indent_level : N)
  : Meth Store (string * string) :=
  a <- to_string fuel this indent_level ;;
  b <- to_string fuel this indent_level ;;
  ret (a, b).

(** ** Notions used in the statements *)

(** The attribute [key] of [o] is present and reads as the number [v]. *)
Definition reads {FA : FloatArith} (o : Object) (key : string) (v : float) : Prop :=
  exists s, StdMap.find key (attr o) = Some s /\ stof s = Ok v.

(** [o] is the segment from [(a, c)] to [(b, d)]: its four endpoint
    attributes read as [x1 = a], [y1 = c], [x2 = b], [y2 = d]. *)
Definition segment {FA : FloatArith} (o : Object) (a c b d : float) : Prop :=
  reads o "x1" a /\ reads o "y1" c /\ reads o "x2" b /\ reads o "y2" d.

(** [q] is [p] or a node below [p]. *)
Inductive reach (st : Store) : addr -> addr -> Prop :=
| reach_here : forall p, reach st p p
| reach_child : forall p o c q,
    nth_error st p = Some o -> In c (children o) -> reach st c q ->
    reach st p q.

(** The nodes below [p] form a finite tree: every pointer owns a node and
    every path of child pointers ends. *)
Inductive finite_tree (st : Store) : addr -> Prop :=
| finite_node : forall p o,
    nth_error st p = Some o ->
    (forall c, In c (children o) -> finite_tree st c) ->
    finite_tree st p.

(** Small numbers of the examples: the [float] nearest to [p / q]. *)
Definition ratio (p q : Z) : float := f_div (f_of_int p) (f_of_int q).

(** The values the accessors of [Line] return on a segment, as functions of
    the endpoint coordinates [(a, c)] and [(b, d)]. *)
Section SegmentValues.
Context {FA : FloatArith}.
Variables a c b d : float.

Definition slope_value : float := f_div (f_sub d c) (f_sub b a).

Definition width_value : float := f_abs (f_sub b a).

Definition height_value : float := f_abs (f_sub d c).

Definition length_value : float :=
    d2f (d_sqrt (d_add (Line.pow2 (f2d width_value))
                       (Line.pow2 (f2d height_value)))).

Definition discrim_value (percent : float) : float :=
    d2f (d_sqrt (d_mul (d_mul (d_of_int 4)
                              (Line.pow2 (f2d (f_mul percent length_value))))
                       (d_div (d_of_int 1)
                              (d_add (d_of_int 1) (Line.pow2 (f2d slope_value)))))).

Definition outside_value (x_a : float) : bool :=
    ((Line.f_gt x_a a && Line.f_gt x_a b) || (f_lt x_a a && f_lt x_a b))%bool.

Definition along_value (percent : float) : float * float :=
    if negb (f_eq a b) then
      let discrim := discrim_value percent in
      let x_a := f_div (f_add (f_mul (f_of_int 2) a) discrim) (f_of_int 2) in
      let x_b := f_div (f_sub (f_mul (f_of_int 2) a) discrim) (f_of_int 2) in
      let x_pos := if outside_value x_a then x_b else x_a in
      (x_pos, f_add (f_mul slope_value (f_sub x_pos a)) c)
    else if Line.f_gt c d then (a, f_sub c (f_mul percent length_value))
    else (a, f_add c (f_mul percent length_value)).

End SegmentValues.

(** The [double] nearest to [p / q]. *)
Definition dratio (p q : Z) : double := d_div (d_of_int p) (d_of_int q).

(** A member function called through a pointer: [p->m()]. *)
Definition invoke {A : Type} (p : addr) (m : Meth Object A) : Meth Store A :=
  o <- deref p ;;
  let '(o', r) := m o in
  store p o' ;;; lift r.

(** [path.start(0, 0); path.line_to(10, 10); path.to_origin();] with [int]
    arguments. *)
Definition path_example : Meth Object unit :=
  Path.start (NInt 0) (NInt 0) ;;;
  Path.line_to (NInt 10) (NInt 10) ;;;
  Path.to_origin.

(** A member function that leaves every node satisfying [P] as it was,
    whether it returns or throws. *)
Definition keeps {FA : FloatArith} {A : Type} (P : Object -> Prop)
           (m : Meth Object A) : Prop :=
  forall o, P o -> fst (m o) = o.

(** The four endpoint attributes of [o] are present (with any text). *)
Definition has_endpoints {FA : FloatArith} (o : Object) : Prop :=
  StdMap.find "x1" (attr o) <> None /\ StdMap.find "y1" (attr o) <> None /\
  StdMap.find "x2" (attr o) <> None /\ StdMap.find "y2" (attr o) <> None.

(** The tree of the example: an [svg] holding a [rect], a [text] and a
    group with a [circle]. *)
Definition example_store : Store :=
  fst ((add_children 0 [Rect_make (ratio 1 1) (ratio 2 1) (ratio 3 1) (ratio 4 1);
                        Text_make (ratio 1 1) (ratio 1 1) "hi";
                        Group_default] ;;;
        add_child 3 (Circle_make (ratio 1 1) (ratio 1 1) (ratio 1 1)))
         [SVG_default]).

(** The root with three children added by one call. *)
Definition C8_store : Store :=
  fst (add_children 0 [Rect_default; Text_make (ratio 1 1) (ratio 2 1) "hi";
                       Group_default] [SVG_default]).

(** A root at address 0 and the caller's group at address 1; the group is
    then passed to [add_child] of the root. *)
Definition C10_store : Store := [SVG_default; Group_default].

(** The same with a rectangle, at address 2, already a child of the caller's
    group. *)
Definition shared_store : Store :=
  [SVG_default; with_children Group_default [2]; Rect_default].

(** ** Further notions *)

(** [Text(xy, _content)] and [Circle(xy, radius)], which delegate to the
    constructors taking two coordinates. *)
Definition Text_make_pair (xy : float * float) (text : string) : Object :=
  Text_make (fst xy) (snd xy) text.

Definition Circle_make_pair (xy : float * float) (radius : float) : Object :=
  Circle_make (fst xy) (snd xy) radius.

(** What the macro [to_string_attrib] appends for the map [m]. *)
Definition attrib_text (m : StdMap.t) : string := to_string_attrib m "".

(** The texts of the children, each followed by a line feed. *)
Fixpoint join_blocks (blocks : list string) : string :=
  match blocks with
  | [] => ""
  | b :: bs => b ++ newline ++ join_blocks bs
  end.

(** What [to_string] visits below [p] is a finite tree of nodes: [p] owns a
    node and, unless that node is a text label (whose children are not
    visited), the same holds of each of its children. *)
Inductive renders (st : Store) : addr -> Prop :=
| renders_node : forall p o,
    nth_error st p = Some o ->
    (kind o <> KText -> forall c, In c (children o) -> renders st c) ->
    renders st p.

(** Every child pointer held in the store owns a node. *)
Definition closed (st : Store) : Prop :=
  forall p o c,
    nth_error st p = Some o -> In c (children o) -> c < List.length st.

(** A caller's loop [for (auto& pt : pts) path.line_to(pt.first, pt.second);]
    and the commands it is meant to add. *)
Fixpoint line_to_each (pts : list (num * num)) : Meth Object unit :=
  match pts with
  | [] => ret tt
  | (x, y) :: rest => Path.line_to x y ;;; line_to_each rest
  end.

Fixpoint commands (pts : list (num * num)) : string :=
  match pts with
  | [] => ""
  | (x, y) :: rest =>
      (" L " ++ num_text x ++ " " ++ num_text y) ++ commands rest
  end.

(** A group at address 0 holding a group at address 1: the caller's node and
    one of its children. *)
Definition nested_store : Store :=
  [with_children Group_default [1]; Group_default].

(** [children.clear()] on the public member [children]. *)
Definition clear_children : Meth Object unit :=
  fun o => (with_children o [], Ok tt).

(** A root at address 0 and the caller's group at address 1; the caller
    runs [c = g.add_child(Group()); c->add_child(g);], after which the node
    [c] points to, at address 2, and the copy of [g], at address 3, are
    children of each other. *)
Definition cycle_store : Store :=
  fst ((add_child 1 Group_default ;;;
        add_child 2 (with_children Group_default [2]))
         [SVG_default; Group_default]).

(** * Properties *)

(** ** The monad *)

Lemma bind_ok {S A B} (m : Meth S A) (k : A -> Meth S B) s s' a :
  m s = (s', Ok a) -> bind m k s = k a s'.
Proof. intros H. unfold bind. now rewrite H. Qed.

Lemma bind_throw {S A B} (m : Meth S A) (k : A -> Meth S B) s s' e :
  m s = (s', Throw e) -> bind m k s = (s', Throw e).
Proof. intros H. unfold bind. now rewrite H. Qed.

(** ** The attribute map *)
Module StdMapFacts.

Lemma ascii_compare_refl (x : ascii) : Ascii.compare x x = Eq.
  Proof. unfold Ascii.compare. apply N.compare_refl. Qed.

Lemma compare_refl (s : string) : String.compare s s = Eq.
  Proof.
    induction s as [|x s IH]; simpl; [reflexivity|].
    now rewrite ascii_compare_refl.
  Qed.

Lemma compare_neq (k k' : string) :
    String.compare k k' <> Eq -> String.eqb k k' = false.
  Proof.
    intros H. apply String.eqb_neq. intros ->. apply H, compare_refl.
  Qed.

Lemma find_assign_same (k v : string) (m : StdMap.t) :
    StdMap.find k (StdMap.assign k v m) = Some v.
  Proof.
    induction m as [|[k' v'] m IH]; simpl.
    - now rewrite String.eqb_refl.
    - destruct (String.compare k k') eqn:E; simpl.
      + now rewrite String.eqb_refl.
      + now rewrite String.eqb_refl.
      + rewrite compare_neq by congruence. exact IH.
  Qed.

Lemma find_assign_other (k k2 v : string) (m : StdMap.t) :
    k2 <> k -> StdMap.find k2 (StdMap.assign k v m) = StdMap.find k2 m.
  Proof.
    intros Hne. apply String.eqb_neq in Hne.
    induction m as [|[k' v'] m IH]; simpl.
    - now rewrite Hne.
    - destruct (String.compare k k') eqn:E; simpl.
      + apply String.compare_eq_iff in E. subst k'. now rewrite Hne.
      + now rewrite Hne.
      + now rewrite IH.
  Qed.

Lemma index_present (k v : string) (m : StdMap.t) :
    StdMap.find k m = Some v -> StdMap.index k m = (m, v).
  Proof. intros H. unfold StdMap.index. now rewrite H. Qed.

Lemma index_absent (k : string) (m : StdMap.t) :
    StdMap.find k m = None -> StdMap.index k m = (StdMap.assign k "" m, "").
  Proof. intros H. unfold StdMap.index. now rewrite H. Qed.

Lemma ascii_compare_lt_trans (x y z : ascii) :
  Ascii.compare x y = Lt -> Ascii.compare y z = Lt -> Ascii.compare x z = Lt.
Proof.
  unfold Ascii.compare. rewrite !N.compare_lt_iff. apply N.lt_trans.
Qed.

Lemma compare_lt_trans (s t u : string) :
  String.compare s t = Lt -> String.compare t u = Lt -> String.compare s u = Lt.
Proof.
  revert t u. induction s as [|x s IH]; intros [|y t] [|z u]; simpl;
    try discriminate; try reflexivity.
  destruct (Ascii.compare x y) eqn:Exy; try discriminate;
    destruct (Ascii.compare y z) eqn:Eyz; try discriminate; intros H1 H2.
  - apply Ascii.compare_eq_iff in Exy, Eyz. subst.
    rewrite ascii_compare_refl. now apply (IH t).
  - apply Ascii.compare_eq_iff in Exy. subst. now rewrite Eyz.
  - apply Ascii.compare_eq_iff in Eyz. subst. now rewrite Exy.
  - now rewrite (ascii_compare_lt_trans _ _ _ Exy Eyz).
Qed.

Lemma keys_above_trans (k k' : string) (m : StdMap.t) :
  String.compare k k' = Lt -> StdMap.keys_above k' m -> StdMap.keys_above k m.
Proof.
  intros Hk. induction m as [|[k2 v2] m IH]; simpl; [auto|].
  intros [H2 Hm]. split; [now apply (compare_lt_trans _ k')|now apply IH].
Qed.

Lemma keys_above_assign (k0 k v : string) (m : StdMap.t) :
  String.compare k0 k = Lt -> StdMap.keys_above k0 m ->
  StdMap.keys_above k0 (StdMap.assign k v m).
Proof.
  intros Hk. induction m as [|[k' v'] m IH]; simpl.
  - auto.
  - intros [H1 H2]. destruct (String.compare k k'); simpl; auto.
Qed.

(** [m[k] = v] keeps the keys in increasing order. *)
Lemma sorted_assign (k v : string) (m : StdMap.t) :
  StdMap.sorted m -> StdMap.sorted (StdMap.assign k v m).
Proof.
  induction m as [|[k' v'] m IH]; simpl; [auto|].
  intros [Ha Hs]. destruct (String.compare k k') eqn:E; simpl.
  - apply String.compare_eq_iff in E. subst k'. auto.
  - repeat split; auto. now apply (keys_above_trans k k').
  - split; [|now apply IH].
    apply keys_above_assign; [|exact Ha].
    rewrite String.compare_antisym, E. reflexivity.
Qed.

Lemma sorted_index (k : string) (m : StdMap.t) :
  StdMap.sorted m -> StdMap.sorted (fst (StdMap.index k m)).
Proof.
  intros H. unfold StdMap.index.
  destruct (StdMap.find k m); simpl; [exact H|now apply sorted_assign].
Qed.

Lemma sorted_of_list (l : list (string * string)) :
  StdMap.sorted (StdMap.of_list l).
Proof.
  unfold StdMap.of_list.
  assert (H : StdMap.sorted StdMap.empty) by exact I.
  revert H. generalize StdMap.empty.
  induction l as [|[k v] l IH]; intros m Hm; simpl; [exact Hm|].
  apply IH. destruct (StdMap.find k m); [exact Hm|now apply sorted_assign].
Qed.

End StdMapFacts.

(** ** Reading attributes *)
Section NodeFacts.
Context {FA : FloatArith}.

Lemma with_attr_same (o : Object) : with_attr o (attr o) = o.
  Proof. now destruct o. Qed.

Lemma attr_index_present (o : Object) (key s : string) :
    StdMap.find key (attr o) = Some s -> attr_index key o = (o, Ok s).
  Proof.
    intros H. unfold attr_index.
    rewrite (StdMapFacts.index_present _ _ _ H). now rewrite with_attr_same.
  Qed.

Lemma attr_index_absent (o : Object) (key : string) :
    StdMap.find key (attr o) = None ->
    attr_index key o = (with_attr o (StdMap.assign key "" (attr o)), Ok "").
  Proof.
    intros H. unfold attr_index. now rewrite (StdMapFacts.index_absent _ _ H).
  Qed.

  (** Reading a present, well-formed attribute returns its number and
      leaves the node as it was. *)
Lemma read_attr (o : Object) (key : string) (v : float) :
    reads o key v ->
    bind (attr_index key) (fun s => lift (stof s)) o = (o, Ok v).
  Proof.
    intros (s & Hs & Hv).
    rewrite (bind_ok _ _ _ _ _ (attr_index_present _ _ _ Hs)).
    unfold lift. now rewrite Hv.
  Qed.

(** The two writes member functions make to the attribute map keep its
    keys in order. *)
Lemma attr_assign_sorted (o : Object) (key v : string) :
  StdMap.sorted (attr o) ->
  StdMap.sorted (attr (fst (attr_assign key v o))).
Proof. apply StdMapFacts.sorted_assign. Qed.

Lemma attr_index_sorted (o : Object) (key : string) :
  StdMap.sorted (attr o) ->
  StdMap.sorted (attr (fst (attr_index key o))).
Proof.
  intros H. unfold attr_index.
  pose proof (StdMapFacts.sorted_index key (attr o) H) as Hs.
  destruct (StdMap.index key (attr o)) as [m v]. exact Hs.
Qed.

End NodeFacts.

(** ** [class Line] on a segment *)
Module LineFacts.
Section LineFacts.
Context {FA : FloatArith}.
Variable o : Object.
Variables a c b d : float.
Hypothesis Hseg : segment o a c b d.

Lemma x1_eq : Line.x1 o = (o, Ok a).
  Proof. apply read_attr, Hseg. Qed.

Lemma y1_eq : Line.y1 o = (o, Ok c).
  Proof. apply read_attr, Hseg. Qed.

Lemma x2_eq : Line.x2 o = (o, Ok b).
  Proof. apply read_attr, Hseg. Qed.

Lemma y2_eq : Line.y2 o = (o, Ok d).
  Proof. apply read_attr, Hseg. Qed.

Ltac step :=
    first [ rewrite (bind_ok _ _ _ _ _ x1_eq)
          | rewrite (bind_ok _ _ _ _ _ x2_eq)
          | rewrite (bind_ok _ _ _ _ _ y1_eq)
          | rewrite (bind_ok _ _ _ _ _ y2_eq) ].

Lemma get_slope_eq : Line.get_slope o = (o, Ok (slope_value a c b d)).
  Proof. unfold Line.get_slope. repeat step. reflexivity. Qed.

Lemma get_width_eq : Line.get_width o = (o, Ok (width_value a b)).
  Proof. unfold Line.get_width. repeat step. reflexivity. Qed.

Lemma get_height_eq : Line.get_height o = (o, Ok (height_value c d)).
  Proof. unfold Line.get_height. repeat step. reflexivity. Qed.

Lemma get_length_eq : Line.get_length o = (o, Ok (length_value a c b d)).
  Proof.
    unfold Line.get_length.
    rewrite (bind_ok _ _ _ _ _ get_width_eq).
    rewrite (bind_ok _ _ _ _ _ get_height_eq).
    reflexivity.
  Qed.

Lemma outside_eq (x_a : float) :
    Line.outside x_a o = (o, Ok (outside_value a b x_a)).
  Proof.
    unfold Line.outside, outside_value.
    step.
    destruct (Line.f_gt x_a a) eqn:Ega.
    - rewrite (bind_ok _ _ _ _ _
                 (bind_ok _ (fun b0 => ret (Line.f_gt x_a b0)) _ _ _ x2_eq)).
      unfold ret at 1.
      destruct (Line.f_gt x_a b) eqn:Egb; simpl.
      + reflexivity.
      + step. destruct (f_lt x_a a); [step|]; reflexivity.
    - unfold ret at 1. unfold bind at 1. simpl.
      step. destruct (f_lt x_a a); [step|]; reflexivity.
  Qed.

Lemma along_eq (percent : float) :
    Line.along percent o = (o, Ok (along_value a c b d percent)).
  Proof.
    unfold Line.along, along_value.
    do 2 step.
    destruct (negb (f_eq a b)).
    - rewrite (bind_ok _ _ _ _ _ get_length_eq).
      rewrite (bind_ok _ _ _ _ _ get_slope_eq).
      do 2 step.
      rewrite (bind_ok _ _ _ _ _ (outside_eq _)).
      rewrite (bind_ok _ _ _ _ _ get_slope_eq).
      do 2 step. reflexivity.
    - do 3 step.
      destruct (Line.f_gt c d); step;
        rewrite (bind_ok _ _ _ _ _ get_length_eq); reflexivity.
  Qed.

End LineFacts.
End LineFacts.

(** ** Reads of [class Line] and the state of the node *)
Section KeepsFacts.
Context {FA : FloatArith}.
Variable P : Object -> Prop.

Lemma keeps_ret {A} (a : A) : keeps P (ret a).
Proof. intros o _. reflexivity. Qed.

Lemma keeps_lift {A} (r : Result A) : keeps P (lift r).
Proof. intros o _. reflexivity. Qed.

Lemma keeps_bind {A B} (m : Meth Object A) (k : A -> Meth Object B) :
  keeps P m -> (forall a, keeps P (k a)) -> keeps P (bind m k).
Proof.
  intros Hm Hk o Ho. unfold bind.
  specialize (Hm o Ho).
  destruct (m o) as [o' [a|e]]; simpl in Hm; subst o'.
  - now apply Hk.
  - reflexivity.
Qed.

Lemma keeps_if {A} (t : bool) (m1 m2 : Meth Object A) :
  keeps P m1 -> keeps P m2 -> keeps P (if t then m1 else m2).
Proof. now destruct t. Qed.

End KeepsFacts.

Create HintDb keeps.
#[local] Hint Resolve keeps_ret keeps_lift keeps_if : keeps.

Lemma keeps_attr_index {FA : FloatArith} (P : Object -> Prop) (key : string) :
  (forall o, P o -> StdMap.find key (attr o) <> None) ->
  keeps P (attr_index key).
Proof.
  intros H o Ho. specialize (H o Ho).
  destruct (StdMap.find key (attr o)) as [s|] eqn:E; [|contradiction].
  now rewrite (attr_index_present _ _ _ E).
Qed.

Ltac keeps_tac :=
  cbv zeta;
  first [ solve [auto with keeps]
        | apply keeps_attr_index; intros ? (? & ? & ? & ?); assumption
        | apply keeps_if; keeps_tac
        | apply keeps_bind; [keeps_tac | intros; keeps_tac] ].

Lemma keeps_x1 {FA : FloatArith} : keeps has_endpoints Line.x1.
Proof. unfold Line.x1. keeps_tac. Qed.

Lemma keeps_x2 {FA : FloatArith} : keeps has_endpoints Line.x2.
Proof. unfold Line.x2. keeps_tac. Qed.

Lemma keeps_y1 {FA : FloatArith} : keeps has_endpoints Line.y1.
Proof. unfold Line.y1. keeps_tac. Qed.

Lemma keeps_y2 {FA : FloatArith} : keeps has_endpoints Line.y2.
Proof. unfold Line.y2. keeps_tac. Qed.

#[local] Hint Resolve keeps_x1 keeps_x2 keeps_y1 keeps_y2 : keeps.

Lemma keeps_get_slope {FA : FloatArith} : keeps has_endpoints Line.get_slope.
Proof. unfold Line.get_slope. keeps_tac. Qed.

Lemma keeps_get_width {FA : FloatArith} : keeps has_endpoints Line.get_width.
Proof. unfold Line.get_width. keeps_tac. Qed.

Lemma keeps_get_height {FA : FloatArith} : keeps has_endpoints Line.get_height.
Proof. unfold Line.get_height. keeps_tac. Qed.

#[local] Hint Resolve keeps_get_slope keeps_get_width keeps_get_height : keeps.

Lemma keeps_get_length {FA : FloatArith} : keeps has_endpoints Line.get_length.
Proof. unfold Line.get_length. keeps_tac. Qed.

#[local] Hint Resolve keeps_get_length : keeps.

Lemma keeps_outside {FA : FloatArith} (x_a : float) :
  keeps has_endpoints (Line.outside x_a).
Proof. unfold Line.outside. keeps_tac. Qed.

#[local] Hint Resolve keeps_outside : keeps.

Lemma keeps_along {FA : FloatArith} (percent : float) :
  keeps has_endpoints (Line.along percent).
Proof. unfold Line.along. keeps_tac. Qed.

(** With its four endpoint attributes present, a segment is left as it was
    by every read accessor, also by one that throws on malformed text. *)
Lemma Line_reads_keep_node {FA : FloatArith} (o : Object) (percent : float) :
  has_endpoints o ->
  fst (Line.x1 o) = o /\ fst (Line.x2 o) = o /\
  fst (Line.y1 o) = o /\ fst (Line.y2 o) = o /\
  fst (Line.get_width o) = o /\ fst (Line.get_height o) = o /\
  fst (Line.get_length o) = o /\ fst (Line.get_slope o) = o /\
  fst (Line.along percent o) = o.
Proof.
  intros H. repeat split.
  - now apply keeps_x1.
  - now apply keeps_x2.
  - now apply keeps_y1.
  - now apply keeps_y2.
  - now apply keeps_get_width.
  - now apply keeps_get_height.
  - now apply keeps_get_length.
  - now apply keeps_get_slope.
  - now apply keeps_along.
Qed.

(** An accessor of [Line] met with its attribute absent inserts the
    attribute with an empty text and throws. *)
Lemma Line_x1_absent (o : Object) :
  StdMap.find "x1" (attr o) = None ->
  Line.x1 o = (with_attr o (StdMap.assign "x1" "" (attr o)),
               Throw invalid_argument) /\
  StdMap.find "x1" (attr (fst (Line.x1 o))) = Some "".
Proof.
  intros H. assert (E : Line.x1 o
                        = (with_attr o (StdMap.assign "x1" "" (attr o)),
                           Throw invalid_argument)).
  { unfold Line.x1. now rewrite (bind_ok _ _ _ _ _ (attr_index_absent _ _ H)). }
  split; [exact E|]. rewrite E. simpl. apply StdMapFacts.find_assign_same.
Qed.

(** C9 (the code departs from the claim).  The claim: no read accessor of a
    segment changes the node, also when an endpoint attribute is absent.
    The code: [x1()] reads [attr["x1"]] without a prior [find], unlike
    [Element::get_width]; on a [Line] built by the default constructor the
    read inserts the attribute [x1] with an empty text and then throws, and
    the node afterwards serialises with that attribute. *)
Theorem C9_x1_inserts_absent_attribute :
  attr Line_default = [] /\
  Line.x1 Line_default
  = (with_attr Line_default [("x1", "")], Throw invalid_argument) /\
  fst (Line.get_width Line_default) <> Line_default /\
  fst (Line.along (ratio 1 2) Line_default) <> Line_default /\
  to_string 1 0 0 [Line_default] = ([Line_default], Ok "<line />") /\
  (invoke 0 Line.x1 ;;; to_string 1 0 0) [Line_default]
  = ([with_attr Line_default [("x1", "")]], Throw invalid_argument) /\
  to_string 1 0 0 [with_attr Line_default [("x1", "")]]
  = ([with_attr Line_default [("x1", "")]],
     Ok ("<line x1=" ++ quote ++ quote ++ " />")).
Proof.
  repeat split;
    intros H; apply (f_equal attr) in H; cbv in H; discriminate H.
Qed.

(** ** [std::stof] at the ends of the range of [float] *)

(** The least normal number printed with nine digits reads back; a text a
    little further below it is tiny and inexact, as is every text between
    two subnormal numbers; a subnormal number written exactly reads back;
    the largest number reads back and a text beyond the rounding boundary
    above it overflows. *)
Example stof_range :
  IEEE.std_stof "1.17549435e-38" = Ok (S754_finite false 8388608 (-149)) /\
  IEEE.std_stof "1.1754943e-38" = Throw out_of_range /\
  IEEE.std_stof "1e-45" = Throw out_of_range /\
  IEEE.std_stof "0x1p-149" = Ok (S754_finite false 1 (-149)) /\
  IEEE.std_stof "3.4028235e38" = Ok (S754_finite false 16777215 104) /\
  IEEE.std_stof "3.4028236e38" = Throw out_of_range /\
  IEEE.std_stof "" = Throw invalid_argument.
Proof. repeat split. Qed.

(** ** [Element::get_width], [Element::get_height], [set_attr] *)

Lemma Element_get_width_absent (o : Object) :
  StdMap.find "width" (attr o) = None ->
  Element.get_width o = (o, Ok IEEE.NAN).
Proof.
  intros H. unfold Element.get_width, attr_has, bind. now rewrite H.
Qed.

Lemma Element_get_width_present (o : Object) (s : string) :
  StdMap.find "width" (attr o) = Some s ->
  Element.get_width o = (o, stof s).
Proof.
  intros H. unfold Element.get_width, attr_has, bind at 1. rewrite H.
  now rewrite (bind_ok _ _ _ _ _ (attr_index_present _ _ _ H)).
Qed.

Lemma Element_get_height_absent (o : Object) :
  StdMap.find "height" (attr o) = None ->
  Element.get_height o = (o, Ok IEEE.NAN).
Proof.
  intros H. unfold Element.get_height, attr_has, bind. now rewrite H.
Qed.

Lemma Element_get_height_present (o : Object) (s : string) :
  StdMap.find "height" (attr o) = Some s ->
  Element.get_height o = (o, stof s).
Proof.
  intros H. unfold Element.get_height, attr_has, bind at 1. rewrite H.
  now rewrite (bind_ok _ _ _ _ _ (attr_index_present _ _ _ H)).
Qed.

Lemma get_width_generic (o : Object) :
  kind o <> KLine -> get_width o = Element.get_width o.
Proof. intros H. unfold get_width, bind, get. now destruct (kind o). Qed.

Lemma get_height_generic (o : Object) :
  kind o <> KLine -> get_height o = Element.get_height o.
Proof. intros H. unfold get_height, bind, get. now destruct (kind o). Qed.

(** C6.  On a node that is not a segment, [get_width()] (resp.
    [get_height()]) returns [NAN] without throwing when the attribute
    [width] (resp. [height]) is absent, and the number [std::stof] parses
    from the stored text when it is present; the node is left as it was. *)
Theorem C6_get_width_height_sentinel (o : Object) :
  kind o <> KLine ->
  (StdMap.find "width" (attr o) = None -> get_width o = (o, Ok IEEE.NAN)) /\
  (forall s, StdMap.find "width" (attr o) = Some s -> get_width o = (o, stof s)) /\
  (StdMap.find "height" (attr o) = None -> get_height o = (o, Ok IEEE.NAN)) /\
  (forall s, StdMap.find "height" (attr o) = Some s -> get_height o = (o, stof s)).
Proof.
  intros Hk.
  rewrite (get_width_generic o Hk), (get_height_generic o Hk).
  repeat split; intros.
  - now apply Element_get_width_absent.
  - now apply Element_get_width_present.
  - now apply Element_get_height_absent.
  - now apply Element_get_height_present.
Qed.

Lemma C6_witness :
  get_width Rect_default = (Rect_default, Ok IEEE.NAN) /\
  get_height Rect_default = (Rect_default, Ok IEEE.NAN) /\
  get_width (Rect_make (ratio 1 1) (ratio 2 1) (ratio 25 2) (ratio 4 1))
  = (Rect_make (ratio 1 1) (ratio 2 1) (ratio 25 2) (ratio 4 1),
     stof "12.500000").
Proof.
  assert (Hd : kind Rect_default <> KLine) by discriminate.
  assert (Hm : kind (Rect_make (ratio 1 1) (ratio 2 1) (ratio 25 2) (ratio 4 1))
               <> KLine) by discriminate.
  destruct (C6_get_width_height_sentinel Rect_default Hd) as (Hw & _ & Hh & _).
  destruct (C6_get_width_height_sentinel _ Hm) as (_ & Hp & _).
  split; [|split].
  - apply Hw. reflexivity.
  - apply Hh. reflexivity.
  - apply Hp. reflexivity.
Defined.

Lemma set_attr_eq (key : string) (v : value) (o : Object) :
  Element.set_attr key v o
  = (with_attr o (StdMap.assign key (value_text v) (attr o)),
     Ok (with_attr o (StdMap.assign key (value_text v) (attr o)))).
Proof. reflexivity. Qed.

Lemma set_width_Element_get_width (o : Object) :
  (Element.set_attr "width" (VDouble (dratio 25 2)) ;;; Element.get_width) o
  = (with_attr o (StdMap.assign "width" "12.500000" (attr o)), Ok (ratio 25 2)).
Proof.
  rewrite (bind_ok _ _ _ _ _ (set_attr_eq _ _ _)).
  change (value_text (VDouble (dratio 25 2))) with "12.500000".
  rewrite (Element_get_width_present _ "12.500000").
  - reflexivity.
  - simpl attr. apply StdMapFacts.find_assign_same.
Qed.

Lemma set_width_get_width (o : Object) :
  kind o <> KLine ->
  (Element.set_attr "width" (VDouble (dratio 25 2)) ;;; get_width) o
  = (with_attr o (StdMap.assign "width" "12.500000" (attr o)), Ok (ratio 25 2)).
Proof.
  intros Hk. rewrite <- set_width_Element_get_width.
  rewrite !(bind_ok _ _ _ _ _ (set_attr_eq _ _ _)).
  now apply get_width_generic.
Qed.

(** C7.  [set_attr(key, value)] stores the text of the value under [key]
    (a number as the decimal text [std::to_string] gives it), replaces a
    prior text for [key], leaves every other attribute and member alone, and
    returns the node itself.  [set_attr("width", 12.5)] followed by
    [Element::get_width()] returns 12.5, and so does the virtual call
    [get_width()] on every node that is not a segment. *)
Theorem C7_set_attr_roundtrip (key : string) (v : value) (o : Object) :
  let o' := with_attr o (StdMap.assign key (value_text v) (attr o)) in
  Element.set_attr key v o = (o', Ok o') /\
  StdMap.find key (attr o') = Some (value_text v) /\
  (forall k, k <> key -> StdMap.find k (attr o') = StdMap.find k (attr o)) /\
  (kind o', content o', children o', x_start o', y_start o')
  = (kind o, content o, children o, x_start o, y_start o) /\
  value_text (VInt 12) = "12" /\
  value_text (VInt (-3)) = "-3" /\
  value_text (VFloat (ratio 25 2)) = "12.500000" /\
  value_text (VDouble (dratio 25 2)) = "12.500000" /\
  value_text (VText "red") = "red" /\
  snd ((Element.set_attr "width" (VDouble (dratio 25 2)) ;;; Element.get_width) o)
  = Ok (ratio 25 2) /\
  (kind o <> KLine ->
   snd ((Element.set_attr "width" (VDouble (dratio 25 2)) ;;; get_width) o)
   = Ok (ratio 25 2)).
Proof.
  cbv zeta. repeat split.
  - simpl attr. apply StdMapFacts.find_assign_same.
  - intros k Hk. simpl attr. now apply StdMapFacts.find_assign_other.
  - now rewrite set_width_Element_get_width.
  - intros Hk. now rewrite (set_width_get_width o Hk).
Qed.

Lemma C7_witness :
  snd ((Element.set_attr "width" (VDouble (dratio 25 2)) ;;; get_width)
         Rect_default)
  = Ok (ratio 25 2).
Proof.
  refine (proj2 (proj2 (proj2 (proj2 (proj2 (proj2 (proj2 (proj2 (proj2 (proj2
           (C7_set_attr_roundtrip "width" (VDouble (dratio 25 2))
              Rect_default)))))))))) _).
  discriminate.
Defined.

(** ** Vertical segments *)

(** C5.  On a segment with [x1 == x2], in any arithmetic, [along(fraction)]
    returns [x = x1] and [y = y1 - fraction * length()] when [y1 > y2], and
    [y = y1 + fraction * length()] otherwise, [length()] being what
    [get_length()] returns; the node is left as it was.  In IEEE arithmetic
    [along(0.25)] is [(3, 7.5)] on the segment (3,10)-(3,0) and [(3, 2.5)]
    on the segment (3,0)-(3,10). *)
Theorem C5_along_vertical :
  (forall (FA : FloatArith) (o : Object) (a c b d fraction : float),
      segment o a c b d -> f_eq a b = true ->
      exists len,
        Line.get_length o = (o, Ok len) /\
        Line.along fraction o
        = (o, Ok (a, if Line.f_gt c d
                     then f_sub c (f_mul fraction len)
                     else f_add c (f_mul fraction len)))) /\
  snd (Line.along (ratio 1 4)
         (Line_make (f_of_int 3) (f_of_int 3) (f_of_int 10) (f_of_int 0)))
  = Ok (f_of_int 3, ratio 15 2) /\
  snd (Line.along (ratio 1 4)
         (Line_make (f_of_int 3) (f_of_int 3) (f_of_int 0) (f_of_int 10)))
  = Ok (f_of_int 3, ratio 5 2).
Proof.
  split; [|split; reflexivity].
  intros FA o a c b d fraction Hseg Heq.
  exists (length_value a c b d). split.
  - now apply LineFacts.get_length_eq.
  - rewrite (LineFacts.along_eq o a c b d Hseg). unfold along_value.
    rewrite Heq. simpl negb. cbv iota.
    now destruct (Line.f_gt c d).
Qed.

Lemma segment_Line_make_3_10_3_0 :
  segment (Line_make (f_of_int 3) (f_of_int 3) (f_of_int 10) (f_of_int 0))
          (f_of_int 3) (f_of_int 10) (f_of_int 3) (f_of_int 0).
Proof.
  repeat split; eexists; (split; [reflexivity|]); reflexivity.
Defined.

Lemma C5_witness :
  exists len,
    Line.get_length
      (Line_make (f_of_int 3) (f_of_int 3) (f_of_int 10) (f_of_int 0))
    = (Line_make (f_of_int 3) (f_of_int 3) (f_of_int 10) (f_of_int 0), Ok len) /\
    Line.along (ratio 1 4)
      (Line_make (f_of_int 3) (f_of_int 3) (f_of_int 10) (f_of_int 0))
    = (Line_make (f_of_int 3) (f_of_int 3) (f_of_int 10) (f_of_int 0),
       Ok (f_of_int 3,
           if Line.f_gt (f_of_int 10) (f_of_int 0)
           then f_sub (f_of_int 10) (f_mul (ratio 1 4) len)
           else f_add (f_of_int 10) (f_mul (ratio 1 4) len))).
Proof.
  apply (proj1 C5_along_vertical IEEE.arith _ _ _ _ _ (ratio 1 4)
           segment_Line_make_3_10_3_0).
  reflexivity.
Defined.

(** ** [class Path] *)

Lemma attr_has_eq (o : Object) (key : string) :
  attr_has key o
  = (o, Ok match StdMap.find key (attr o) with Some _ => true | None => false end).
Proof. reflexivity. Qed.

Lemma start_eq (x y : num) (o : Object) :
  Path.start x y o
  = (with_start
       (with_attr o (StdMap.assign "d" ("M " ++ num_text x ++ " " ++ num_text y)
                                   (attr o)))
       (num_float x) (num_float y),
     Ok tt).
Proof. reflexivity. Qed.

Lemma line_to_absent (x y : num) (o : Object) :
  StdMap.find "d" (attr o) = None ->
  Path.line_to x y o = Path.start x y o.
Proof.
  intros H. unfold Path.line_to.
  rewrite (bind_ok _ _ _ _ _ (attr_has_eq o "d")). now rewrite H.
Qed.

Lemma line_to_present (x y : num) (o : Object) (d0 : string) :
  StdMap.find "d" (attr o) = Some d0 ->
  Path.line_to x y o
  = (with_attr o (StdMap.assign "d"
                    (d0 ++ (" L " ++ num_text x ++ " " ++ num_text y)) (attr o)),
     Ok tt).
Proof.
  intros H. unfold Path.line_to.
  rewrite (bind_ok _ _ _ _ _ (attr_has_eq o "d")). rewrite H.
  cbn [negb].
  now rewrite (bind_ok _ _ _ _ _ (attr_index_present _ _ _ H)).
Qed.

Lemma to_origin_eq (o : Object) :
  Path.to_origin o = Path.line_to (NFloat (x_start o)) (NFloat (y_start o)) o.
Proof. reflexivity. Qed.

(** C2 (as amended).  On a path whose [d] attribute has the text [d0]:
    [line_to(x, y)] makes it [d0] followed by [" L x y"], and [to_origin()]
    makes it [d0] followed by [" L xs ys"] for the recorded start point; both
    leave [d0] as a prefix.  [start(x, y)] replaces the text by ["M x y"]. *)
Theorem C2_path_append_or_restart (o : Object) (d0 : string) (x y : num) :
  StdMap.find "d" (attr o) = Some d0 ->
  (exists o1, Path.line_to x y o = (o1, Ok tt) /\
     StdMap.find "d" (attr o1)
     = Some (d0 ++ (" L " ++ num_text x ++ " " ++ num_text y))) /\
  (exists o2, Path.to_origin o = (o2, Ok tt) /\
     StdMap.find "d" (attr o2)
     = Some (d0 ++ (" L " ++ IEEE.to_string_fp (x_start o) ++ " "
                          ++ IEEE.to_string_fp (y_start o)))) /\
  (exists o3, Path.start x y o = (o3, Ok tt) /\
     StdMap.find "d" (attr o3)
     = Some ("M " ++ num_text x ++ " " ++ num_text y)).
Proof.
  intros H. split; [|split].
  - eexists. split; [apply (line_to_present _ _ _ _ H)|].
    simpl attr. apply StdMapFacts.find_assign_same.
  - eexists. split; [rewrite to_origin_eq; apply (line_to_present _ _ _ _ H)|].
    simpl attr. apply StdMapFacts.find_assign_same.
  - eexists. split; [apply start_eq|].
    simpl attr. apply StdMapFacts.find_assign_same.
Qed.

Lemma C2_witness :
  let o := fst (Path.start (NInt 0) (NInt 0) (Path.make IEEE.NAN IEEE.NAN)) in
  exists o1, Path.line_to (NInt 1) (NInt 1) o = (o1, Ok tt) /\
     StdMap.find "d" (attr o1) = Some ("M 0 0" ++ " L 1 1").
Proof.
  apply (C2_path_append_or_restart
           (fst (Path.start (NInt 0) (NInt 0) (Path.make IEEE.NAN IEEE.NAN)))
           "M 0 0" (NInt 1) (NInt 1)).
  reflexivity.
Defined.

(** C2 (as stated) fails for [start]: on the path whose [d] is
    ["M 0 0 L 1 1"], [start(5, 5)] leaves ["M 5 5"], of which the prior text
    is no prefix. *)
Lemma C2_counterexample :
  let o := fst ((Path.start (NInt 0) (NInt 0) ;;; Path.line_to (NInt 1) (NInt 1))
                  (Path.make IEEE.NAN IEEE.NAN)) in
  StdMap.find "d" (attr o) = Some "M 0 0 L 1 1" /\
  StdMap.find "d" (attr (fst (Path.start (NInt 5) (NInt 5) o))) = Some "M 5 5" /\
  String.prefix "M 0 0 L 1 1" "M 5 5" = false.
Proof. repeat split. Qed.

(** C3 (as amended).  On a path without [d] attribute, [line_to(x, y)] does
    what [start(x, y)] does: [d] becomes ["M x y"] and the start point
    becomes [(x, y)].  [to_origin()] on a path whose [d] is [d0] appends a
    line command to the recorded start point, printed as [float]s.  After
    [start(0, 0)], [line_to(10, 10)], [to_origin()] with [int] arguments the
    text of [d] is ["M 0 0 L 10 10 L 0.000000 0.000000"]. *)
Theorem C3_line_to_starts_and_to_origin :
  (forall (o : Object) (x y : num),
      StdMap.find "d" (attr o) = None ->
      Path.line_to x y o = Path.start x y o /\
      let o' := fst (Path.line_to x y o) in
      StdMap.find "d" (attr o') = Some ("M " ++ num_text x ++ " " ++ num_text y) /\
      x_start o' = num_float x /\ y_start o' = num_float y) /\
  (forall (o : Object) (d0 : string),
      StdMap.find "d" (attr o) = Some d0 ->
      StdMap.find "d" (attr (fst (Path.to_origin o)))
      = Some (d0 ++ (" L " ++ IEEE.to_string_fp (x_start o) ++ " "
                           ++ IEEE.to_string_fp (y_start o)))) /\
  (forall x0 y0 : float,
      StdMap.find "d" (attr (fst (path_example (Path.make x0 y0))))
      = Some "M 0 0 L 10 10 L 0.000000 0.000000").
Proof.
  split; [|split].
  - intros o x y H. rewrite (line_to_absent _ _ _ H). split; [reflexivity|].
    cbv zeta. rewrite start_eq. simpl. split; [|split]; try reflexivity.
    apply StdMapFacts.find_assign_same.
  - intros o d0 H. rewrite to_origin_eq, (line_to_present _ _ _ _ H).
    simpl. apply StdMapFacts.find_assign_same.
  - intros x0 y0. reflexivity.
Qed.

Lemma C3_witness :
  Path.line_to (NInt 3) (NInt 4) (Path.make IEEE.NAN IEEE.NAN)
  = Path.start (NInt 3) (NInt 4) (Path.make IEEE.NAN IEEE.NAN) /\
  StdMap.find "d"
    (attr (fst (Path.to_origin
                  (fst (Path.start (NInt 3) (NInt 4)
                          (Path.make IEEE.NAN IEEE.NAN))))))
  = Some ("M 3 4" ++ (" L " ++ "3.000000" ++ " " ++ "4.000000")).
Proof.
  split.
  - apply (proj1 C3_line_to_starts_and_to_origin
             (Path.make IEEE.NAN IEEE.NAN) (NInt 3) (NInt 4)).
    reflexivity.
  - apply (proj1 (proj2 C3_line_to_starts_and_to_origin)
             (fst (Path.start (NInt 3) (NInt 4) (Path.make IEEE.NAN IEEE.NAN)))
             "M 3 4").
    reflexivity.
Defined.

(** C3 (as stated) fails on the text: the closing command prints the start
    point, held in [float] members, with six decimals. *)
Lemma C3_counterexample :
  StdMap.find "d"
    (attr (fst (path_example (Path.make (S754_zero false) (S754_zero false)))))
  = Some "M 0 0 L 10 10 L 0.000000 0.000000" /\
  StdMap.find "d"
    (attr (fst (path_example (Path.make (S754_zero false) (S754_zero false)))))
  <> Some "M 0 0 L 10 10 L 0 0".
Proof. split; [reflexivity|discriminate]. Qed.

(** ** Segments that are not vertical *)

(** The guard of [Line::along], in any arithmetic: a root [x_a] that lies
    strictly above both endpoints is given up for the root [x_b] on the
    other side of [x1], whichever side [x2] is on. *)
Lemma along_root_above_endpoints {FA : FloatArith} (o : Object)
      (a c b d fraction : float) :
  segment o a c b d -> f_eq a b = false ->
  let discrim := discrim_value a c b d fraction in
  let x_a := f_div (f_add (f_mul (f_of_int 2) a) discrim) (f_of_int 2) in
  let x_b := f_div (f_sub (f_mul (f_of_int 2) a) discrim) (f_of_int 2) in
  Line.f_gt x_a a = true -> Line.f_gt x_a b = true ->
  Line.along fraction o
  = (o, Ok (x_b, f_add (f_mul (slope_value a c b d) (f_sub x_b a)) c)).
Proof.
  intros Hseg Hab discrim x_a x_b Ha Hb.
  rewrite (LineFacts.along_eq o a c b d Hseg).
  unfold along_value, outside_value. rewrite Hab. cbn [negb].
  fold discrim. fold x_a. now rewrite Ha, Hb.
Qed.

(** C4 (defect).  In IEEE arithmetic, as the code computes.  On the segment
    (0,0)-(3,7), [along(1)] is not the second endpoint but
    [(-3.0000002, -7.0000005)], a point on the side of [x1] away from [x2]:
    the root [x_a] comes out as 3.0000002, the [float] next above [x2 = 3],
    which lies strictly beyond both endpoints, so that the guard replaces it
    by the root [x_b] on the other side of [x1].  On the segment
    (0,0)-(10,0), [along(2)] is [(-20, 0)] for the same reason.  The sibling
    paths do go beyond the second endpoint, on its side: on the reversed
    segment (10,0)-(0,0) [along(2)] is [(-10, 0)], and on the vertical
    segment (0,0)-(0,10) [along(2)] is [(0, 20)].  The figures given for the
    segment (0,0)-(10,0) hold: [get_length() = 10], [get_width() = 10],
    [get_height() = 0] and [along(0.5) = (5, 0)]. *)
Theorem C4_along_leaves_the_side_of_x2 :
  (let l := Line_make (f_of_int 0) (f_of_int 3) (f_of_int 0) (f_of_int 7) in
   let x_a := S754_finite false 12582913 (-22) in
   let x := S754_finite true 12582913 (-22) in
   let y := S754_finite true 14680065 (-21) in
   stof "3.0000002" = Ok x_a /\
   stof "-3.0000002" = Ok x /\
   stof "-7.0000005" = Ok y /\
   Line.x1 l = (l, Ok (f_of_int 0)) /\
   Line.x2 l = (l, Ok (f_of_int 3)) /\
   f_eq (f_of_int 0) (f_of_int 3) = false /\
   f_div (f_add (f_mul (f_of_int 2) (f_of_int 0))
                (discrim_value (f_of_int 0) (f_of_int 0)
                               (f_of_int 3) (f_of_int 7) (f_of_int 1)))
         (f_of_int 2) = x_a /\
   Line.f_gt x_a (f_of_int 0) = true /\
   Line.f_gt x_a (f_of_int 3) = true /\
   Line.along (f_of_int 1) l = (l, Ok (x, y)) /\
   f_lt x (f_of_int 0) = true /\
   f_lt (f_of_int 0) (f_of_int 3) = true) /\
  (let l := Line_make (f_of_int 0) (f_of_int 10) (f_of_int 0) (f_of_int 0) in
   Line.along (f_of_int 2) l = (l, Ok (f_of_int (-20), f_of_int 0)) /\
   f_lt (f_of_int (-20)) (f_of_int 0) = true /\
   f_lt (f_of_int 0) (f_of_int 10) = true) /\
  (let r := Line_make (f_of_int 10) (f_of_int 0) (f_of_int 0) (f_of_int 0) in
   Line.along (f_of_int 2) r = (r, Ok (f_of_int (-10), f_of_int 0))) /\
  (let v := Line_make (f_of_int 0) (f_of_int 0) (f_of_int 0) (f_of_int 10) in
   Line.along (f_of_int 2) v = (v, Ok (f_of_int 0, f_of_int 20))) /\
  (let l := Line_make (f_of_int 0) (f_of_int 10) (f_of_int 0) (f_of_int 0) in
   Line.get_length l = (l, Ok (f_of_int 10)) /\
   get_width l = (l, Ok (f_of_int 10)) /\
   get_height l = (l, Ok (f_of_int 0)) /\
   Line.along (ratio 1 2) l = (l, Ok (f_of_int 5, f_of_int 0))).
Proof. cbv zeta. repeat split. Qed.

(** ** The store *)

Lemma append_assoc (s t u : string) : (s ++ t) ++ u = s ++ (t ++ u).
Proof. induction s as [|x s IH]; simpl; [reflexivity|now rewrite IH]. Qed.

Lemma append_empty_r (s : string) : s ++ "" = s.
Proof. induction s as [|x s IH]; simpl; [reflexivity|now rewrite IH]. Qed.

Module StoreFacts.

Lemma update_length (p : addr) (o : Object) (st : Store) :
  List.length (update p o st) = List.length st.
Proof.
  revert p. induction st as [|o' st IH]; intros [|p]; simpl; auto.
Qed.

Lemma nth_error_update_same (p : addr) (o : Object) (st : Store) :
  p < List.length st -> nth_error (update p o st) p = Some o.
Proof.
  revert p. induction st as [|o' st IH]; intros [|p] H; simpl in *;
    try lia; [reflexivity|apply IH; lia].
Qed.

Lemma nth_error_update_other (p q : addr) (o : Object) (st : Store) :
  q <> p -> nth_error (update p o st) q = nth_error st q.
Proof.
  revert p q. induction st as [|o' st IH]; intros [|p] [|q] H; simpl;
    try reflexivity; try congruence.
  apply IH. congruence.
Qed.

Lemma update_app (p : addr) (o : Object) (st l : Store) :
  p < List.length st -> update p o (st ++ l)%list = (update p o st ++ l)%list.
Proof.
  revert p. induction st as [|o' st IH]; intros [|p] H; simpl in *;
    try lia; [reflexivity|f_equal; apply IH; lia].
Qed.

Lemma update_update (p : addr) (o1 o2 : Object) (st : Store) :
  update p o2 (update p o1 st) = update p o2 st.
Proof.
  revert p. induction st as [|o' st IH]; intros [|p]; simpl; try reflexivity.
  f_equal. apply IH.
Qed.

Lemma nth_error_in_range (st : Store) (p : addr) (o : Object) :
  nth_error st p = Some o -> p < List.length st.
Proof. intros H. apply nth_error_Some. congruence. Qed.

Lemma add_child_eq (st : Store) (p : addr) (o node : Object) :
  nth_error st p = Some o ->
  add_child p node st
  = (update p (with_children o (children o ++ [List.length st])%list)
            (st ++ [node])%list,
     Ok (List.length st)).
Proof.
  intros H. pose proof (nth_error_in_range _ _ _ H) as Hp.
  unfold add_child, bind, make_shared, deref, store.
  rewrite (nth_error_app1 _ _ Hp), H.
  reflexivity.
Qed.

Lemma add_children_eq (nodes : list Object) :
  forall (st : Store) (p : addr) (o : Object),
    nth_error st p = Some o ->
    add_children p nodes st
    = (update p (with_children o
                   (children o ++ seq (List.length st) (List.length nodes))%list)
              (st ++ nodes)%list,
       Ok tt).
Proof.
  induction nodes as [|node nodes IH]; intros st p o H.
  - simpl. rewrite !app_nil_r.
    unfold ret. f_equal.
    pose proof (nth_error_in_range _ _ _ H) as Hp.
    revert p o H Hp. induction st as [|o' st IHst]; intros [|p] o H Hp;
      simpl in *; try lia.
    + injection H as ->. now destruct o.
    + f_equal. apply IHst; [exact H|lia].
  - pose proof (nth_error_in_range _ _ _ H) as Hp.
    simpl add_children.
    rewrite (bind_ok _ _ _ _ _ (add_child_eq st p o node H)).
    rewrite (IH _ p (with_children o (children o ++ [List.length st])%list)).
    + f_equal.
      rewrite <- update_app by (rewrite length_app; simpl; lia).
      rewrite update_update.
      rewrite update_length, length_app. simpl List.length.
      rewrite <- !app_assoc. simpl.
      replace (List.length st + 1) with (S (List.length st)) by lia.
      unfold with_children. simpl. now rewrite <- app_assoc.
    + apply nth_error_update_same. rewrite length_app. simpl. lia.
Qed.

End StoreFacts.

(** ** Serialisation *)
Module ToStringFacts.

Lemma deref_eq (st : Store) (p : addr) (o : Object) :
  nth_error st p = Some o -> deref p st = (st, Ok o).
Proof. intros H. unfold deref. now rewrite H. Qed.

Lemma each_child_state (call : addr -> Meth Store string) (cs : list addr) :
  (forall c st, In c cs -> fst (call c st) = st) ->
  forall r0 st, fst (each_child call cs r0 st) = st.
Proof.
  induction cs as [|c cs IH]; intros Hc r0 st; simpl; [reflexivity|].
  unfold bind. pose proof (Hc c st (or_introl eq_refl)) as H.
  destruct (call c st) as [st1 [s|e]]; simpl in H; subst st1.
  - apply IH. intros c' st' Hin. apply (Hc c' st'). now right.
  - reflexivity.
Qed.

(** Serialising writes nothing: the store after the call is the store
    before it, whatever the call ends in. *)
Lemma to_string_state (fuel : nat) :
  forall p n st, fst (to_string fuel p n st) = st.
Proof.
  induction fuel as [|fuel IH]; intros p n st; simpl; [reflexivity|].
  unfold bind at 1, deref.
  destruct (nth_error st p) as [o|]; [|reflexivity].
  destruct (kind o); try reflexivity;
    (destruct (empty (children o)); [reflexivity|]);
    cbn [negb]; unfold bind;
    match goal with
    | |- context [each_child ?f ?l ?r ?s] =>
        pose proof (each_child_state f l (fun c0 s0 _ => IH c0 _ s0) r s) as H;
        destruct (each_child f l r s) as [st1 [body|e]]; simpl in H; subst st1;
        reflexivity
    end.
Qed.

Lemma to_string_eq (fuel : nat) (p : addr) (n : N) (st : Store) :
  to_string fuel p n st = (st, snd (to_string fuel p n st)).
Proof.
  pose proof (to_string_state fuel p n st) as H.
  destruct (to_string fuel p n st) as [st1 r]. simpl in *. now subst.
Qed.

Lemma each_child_acc (call : addr -> Meth Store string) (cs : list addr) :
  forall r0 st,
    each_child call cs r0 st
    = match each_child call cs "" st with
      | (st', Ok s) => (st', Ok (r0 ++ s))
      | (st', Throw e) => (st', Throw e)
      end.
Proof.
  induction cs as [|c cs IH]; intros r0 st; simpl.
  - unfold ret. now rewrite append_empty_r.
  - unfold bind. destruct (call c st) as [st1 [s|e]]; [|reflexivity].
    rewrite (IH (r0 ++ (s ++ newline))), (IH ("" ++ (s ++ newline))).
    destruct (each_child call cs "" st1) as [st2 [t|e]]; [|reflexivity].
    simpl. now rewrite append_assoc.
Qed.

Lemma each_child_app (call : addr -> Meth Store string) (cs1 cs2 : list addr) :
  forall r0 st,
    each_child call (cs1 ++ cs2)%list r0 st
    = bind (each_child call cs1 r0) (fun r1 => each_child call cs2 r1) st.
Proof.
  induction cs1 as [|c cs1 IH]; intros r0 st; simpl; [reflexivity|].
  unfold bind.
  destruct (call c st) as [st1 [s|e]]; [|reflexivity].
  apply IH.
Qed.

Lemma to_string_text (fuel : nat) (p : addr) (n : N) (st : Store) (o : Object) :
  nth_error st p = Some o -> kind o = KText ->
  to_string (S fuel) p n st = (st, Ok (Text_to_string o n)).
Proof.
  intros H Hk. simpl. rewrite (bind_ok _ _ _ _ _ (deref_eq _ _ _ H)).
  now rewrite Hk.
Qed.

Lemma to_string_leaf (fuel : nat) (p : addr) (n : N) (st : Store) (o : Object) :
  nth_error st p = Some o -> kind o <> KText -> children o = [] ->
  to_string (S fuel) p n st
  = (st, Ok (to_string_attrib (attr o) (indentation n ++ "<" ++ tag (kind o))
             ++ " />")).
Proof.
  intros H Hk Hc. simpl. rewrite (bind_ok _ _ _ _ _ (deref_eq _ _ _ H)).
  rewrite Hc. now destruct (kind o).
Qed.

Lemma to_string_node (fuel : nat) (p : addr) (n : N) (st : Store) (o : Object) :
  nth_error st p = Some o -> kind o <> KText -> children o <> [] ->
  to_string (S fuel) p n st
  = (body <- each_child (fun c => to_string fuel c (next_level n)) (children o)
               (to_string_attrib (attr o) (indentation n ++ "<" ++ tag (kind o))
                ++ (">" ++ newline)) ;;
     ret (body ++ (indentation n ++ "</" ++ tag (kind o) ++ ">"))) st.
Proof.
  intros H Hk Hc. simpl. rewrite (bind_ok _ _ _ _ _ (deref_eq _ _ _ H)).
  assert (He : empty (children o) = false)
    by (destruct (children o); [contradiction|reflexivity]).
  rewrite He. now destruct (kind o).
Qed.

Lemma each_child_mono (call1 call2 : addr -> Meth Store string) (cs : list addr) :
  (forall c st0 st1 s, In c cs ->
      call1 c st0 = (st1, Ok s) -> call2 c st0 = (st1, Ok s)) ->
  forall r0 st st' s,
    each_child call1 cs r0 st = (st', Ok s) ->
    each_child call2 cs r0 st = (st', Ok s).
Proof.
  induction cs as [|c cs IH]; intros Hc r0 st st' s; simpl; [auto|].
  unfold bind. destruct (call1 c st) as [st1 [t|e]] eqn:E; [|discriminate].
  rewrite (Hc c st st1 t (or_introl eq_refl) E).
  apply IH. intros c' st0 st2 u Hin. apply Hc. now right.
Qed.

Lemma to_string_bad_pointer (fuel : nat) (p : addr) (n : N) (st : Store) :
  nth_error st p = None ->
  to_string (S fuel) p n st = (st, Throw bad_pointer).
Proof. intros H. simpl. unfold bind, deref. now rewrite H. Qed.

Lemma kind_text_dec (k : Kind) : {k = KText} + {k <> KText}.
Proof. destruct k; (now left) || (right; discriminate). Qed.

Lemma to_string_fuel_S (fuel : nat) :
  forall p n st st' s,
    to_string fuel p n st = (st', Ok s) ->
    to_string (S fuel) p n st = (st', Ok s).
Proof.
  induction fuel as [|fuel IH]; intros p n st st' s H; [discriminate|].
  destruct (nth_error st p) as [o|] eqn:Ho.
  - destruct (kind_text_dec (kind o)) as [Hk|Hk].
    + rewrite (to_string_text fuel _ _ _ _ Ho Hk) in H.
      now rewrite (to_string_text (S fuel) _ _ _ _ Ho Hk).
    + destruct (children o) as [|c cs] eqn:Hc.
      * rewrite (to_string_leaf fuel _ _ _ _ Ho Hk Hc) in H.
        now rewrite (to_string_leaf (S fuel) _ _ _ _ Ho Hk Hc).
      * assert (Hne : children o <> []) by (rewrite Hc; discriminate).
        rewrite (to_string_node fuel _ _ _ _ Ho Hk Hne) in H.
        rewrite (to_string_node (S fuel) _ _ _ _ Ho Hk Hne).
        unfold bind in *.
        destruct (each_child (fun c0 => to_string fuel c0 (next_level n)) _ _ st)
          as [st1 [body|e]] eqn:E; [|discriminate].
        rewrite (each_child_mono _
                   (fun c0 => to_string (S fuel) c0 (next_level n)) _
                   (fun c0 st0 st2 u _ => IH c0 _ st0 st2 u) _ _ _ _ E).
        exact H.
  - rewrite (to_string_bad_pointer _ _ _ _ Ho) in H. discriminate.
Qed.

Lemma to_string_fuel_le (fuel fuel' : nat) (p : addr) (n : N) (st st' : Store)
      (s : string) :
  fuel <= fuel' ->
  to_string fuel p n st = (st', Ok s) ->
  to_string fuel' p n st = (st', Ok s).
Proof.
  induction 1 as [|fuel' Hle IH]; [auto|].
  intros H. apply to_string_fuel_S. now apply IH.
Qed.

End ToStringFacts.

Import ToStringFacts StoreFacts.

Lemma each_child_ok (call : addr -> Meth Store string) (cs : list addr)
      (st : Store) :
  (forall c, In c cs -> exists s, call c st = (st, Ok s)) ->
  forall r0, exists s, each_child call cs r0 st = (st, Ok s).
Proof.
  induction cs as [|c cs IH]; intros Hc r0; simpl.
  - now exists r0.
  - destruct (Hc c (or_introl eq_refl)) as [s Hs].
    rewrite (bind_ok _ _ _ _ _ Hs).
    apply IH. intros c' Hin. apply Hc. now right.
Qed.

(** A common budget for the children of a node. *)
Lemma common_fuel (st : Store) (cs : list addr) :
  (forall c, In c cs ->
     exists fuel, forall n, exists s, to_string fuel c n st = (st, Ok s)) ->
  exists fuel, forall c, In c cs ->
     forall n, exists s, to_string fuel c n st = (st, Ok s).
Proof.
  induction cs as [|c cs IH]; intros H.
  - exists 0. intros c [].
  - destruct (H c (or_introl eq_refl)) as [f1 H1].
    destruct IH as [f2 H2]; [intros c' Hin; apply H; now right|].
    exists (Nat.max f1 f2). intros c' [<-|Hin] n.
    + destruct (H1 n) as [s Hs]. exists s.
      apply (to_string_fuel_le f1); [lia|exact Hs].
    + destruct (H2 c' Hin n) as [s Hs]. exists s.
      apply (to_string_fuel_le f2); [lia|exact Hs].
Qed.

(** On a finite tree the serialisation ends, with a value. *)
Lemma to_string_finite_tree (st : Store) (p : addr) :
  finite_tree st p ->
  exists fuel, forall n, exists s, to_string fuel p n st = (st, Ok s).
Proof.
  induction 1 as [p o Ho Hc IH].
  destruct (common_fuel st (children o) IH) as [fuel Hf].
  exists (S fuel). intros n.
  destruct (kind_text_dec (kind o)) as [Hk|Hk].
  - eexists. apply (to_string_text _ _ _ _ _ Ho Hk).
  - destruct (children o) as [|c cs] eqn:Ec.
    + eexists. apply (to_string_leaf _ _ _ _ _ Ho Hk Ec).
    + assert (Hne : children o <> []) by (rewrite Ec; discriminate).
      rewrite (to_string_node _ _ _ _ _ Ho Hk Hne). rewrite Ec.
      destruct (each_child_ok (fun c0 => to_string fuel c0 (next_level n))
                  (c :: cs) st (fun c0 Hin => Hf c0 Hin (next_level n))
                  (to_string_attrib (attr o)
                     (indentation n ++ "<" ++ tag (kind o)) ++ (">" ++ newline)))
        as [body Hb].
      rewrite (bind_ok _ _ _ _ _ Hb). eexists. reflexivity.
Qed.

(** C1.  On a finite tree, serialising twice in a row gives the same text
    twice, and the store after the two calls is the store before them: no
    attribute, child or content was written. *)
Theorem C1_to_string_twice (st : Store) (p : addr) :
  finite_tree st p ->
  exists fuel, forall fuel' n, fuel <= fuel' ->
    exists s,
      to_string fuel' p n st = (st, Ok s) /\
      to_string_twice fuel' p n st = (st, Ok (s, s)).
Proof.
  intros Ht. destruct (to_string_finite_tree st p Ht) as [fuel Hf].
  exists fuel. intros fuel' n Hle. destruct (Hf n) as [s Hs].
  pose proof (to_string_fuel_le _ _ _ _ _ _ _ Hle Hs) as Hs'.
  exists s. split; [exact Hs'|].
  unfold to_string_twice.
  now rewrite (bind_ok _ _ _ _ _ Hs'), (bind_ok _ _ _ _ _ Hs').
Qed.

Lemma finite_tree_leaf (st : Store) (p : addr) (o : Object) :
  nth_error st p = Some o -> children o = [] -> finite_tree st p.
Proof.
  intros H Hc. apply (finite_node st p o H). rewrite Hc. intros c [].
Qed.

Lemma finite_tree_example : finite_tree example_store 0.
Proof.
  assert (H1 : finite_tree example_store 1)
    by (eapply finite_tree_leaf; reflexivity).
  assert (H2 : finite_tree example_store 2)
    by (eapply finite_tree_leaf; reflexivity).
  assert (H4 : finite_tree example_store 4)
    by (eapply finite_tree_leaf; reflexivity).
  assert (H3 : finite_tree example_store 3).
  { eapply finite_node; [reflexivity|].
    intros c [<-|[]]. exact H4. }
  eapply finite_node; [reflexivity|].
  intros c [<-|[<-|[<-|[]]]]; assumption.
Defined.

Lemma C1_witness :
  exists fuel, forall fuel' n, fuel <= fuel' ->
    exists s,
      to_string fuel' 0 n example_store = (example_store, Ok s) /\
      to_string_twice fuel' 0 n example_store = (example_store, Ok (s, s)).
Proof. exact (C1_to_string_twice example_store 0 finite_tree_example). Defined.

(** ** [add_child] and the order of children *)

Lemma with_children_kind (o : Object) (cs : list addr) :
  kind (with_children o cs) = kind o /\ attr (with_children o cs) = attr o /\
  children (with_children o cs) = cs.
Proof. repeat split. Qed.

Lemma add_child_result (st st' : Store) (p r : addr) (node : Object) :
  add_child p node st = (st', Ok r) ->
  r = List.length st /\ List.length st' = S (List.length st).
Proof.
  unfold add_child, bind, make_shared, deref, store, ret.
  destruct (nth_error (st ++ [node])%list p) as [o|]; [|discriminate].
  intros [= <- <-]. split; [reflexivity|].
  rewrite update_length, length_app. simpl. lia.
Qed.

(** C8.  [add_child(A, B, C)] on the node at [p] stores copies of [A], [B],
    [C] at three new addresses and appends these, in this order, after the
    children [p] had; three calls with one argument do the same.  The text
    of [p] is then: its opening tag, the blocks of the earlier children, the
    block of [A], the block of [B], the block of [C] (each followed by a line
    feed), and its closing tag. *)
Theorem C8_add_child_order (st : Store) (p : addr) (o A B C : Object) :
  nth_error st p = Some o ->
  let a := List.length st in
  let b := S a in
  let c := S (S a) in
  let o' := with_children o (children o ++ [a; b; c])%list in
  let st' := update p o' (st ++ [A; B; C])%list in
  add_children p [A; B; C] st = (st', Ok tt) /\
  (add_child p A ;;; add_child p B ;;; add_child p C) st = (st', Ok c) /\
  nth_error st' p = Some o' /\
  nth_error st' a = Some A /\ nth_error st' b = Some B /\
  nth_error st' c = Some C /\
  (kind o <> KText ->
   forall (fuel : nat) (n : N) (old sA sB sC : string),
     each_child (fun q => to_string fuel q (next_level n)) (children o) "" st'
     = (st', Ok old) ->
     to_string fuel a (next_level n) st' = (st', Ok sA) ->
     to_string fuel b (next_level n) st' = (st', Ok sB) ->
     to_string fuel c (next_level n) st' = (st', Ok sC) ->
     to_string (S fuel) p n st'
     = (st', Ok (to_string_attrib (attr o) (indentation n ++ "<" ++ tag (kind o))
                 ++ ">" ++ newline
                 ++ old
                 ++ sA ++ newline ++ sB ++ newline ++ sC ++ newline
                 ++ indentation n ++ "</" ++ tag (kind o) ++ ">"))).
Proof.
  intros Ho a b c o' st'.
  pose proof (nth_error_in_range _ _ _ Ho) as Hp.
  assert (Hlen : List.length (st ++ [A; B; C])%list = S (S (S a)))
    by (rewrite length_app; simpl; subst a; lia).
  assert (Hst : add_children p [A; B; C] st = (st', Ok tt))
    by (rewrite (add_children_eq _ _ _ _ Ho); reflexivity).
  assert (Hp' : nth_error st' p = Some o')
    by (apply nth_error_update_same; lia).
  assert (Ha : nth_error st' a = Some A).
  { unfold st'. rewrite nth_error_update_other by (subst a; lia).
    rewrite nth_error_app2 by (subst a; lia).
    subst a. now rewrite Nat.sub_diag. }
  assert (Hb : nth_error st' b = Some B).
  { unfold st'. rewrite nth_error_update_other by (subst b a; lia).
    rewrite nth_error_app2 by (subst b a; lia).
    subst b a. now replace (S (List.length st) - List.length st) with 1 by lia. }
  assert (Hc : nth_error st' c = Some C).
  { unfold st'. rewrite nth_error_update_other by (subst c a; lia).
    rewrite nth_error_app2 by (subst c a; lia).
    subst c a.
    now replace (S (S (List.length st)) - List.length st) with 2 by lia. }
  repeat split; try assumption.
  - revert Hst. simpl add_children. unfold bind, ret.
    destruct (add_child p A st) as [st1 [ra|e]] eqn:E1; [|discriminate].
    destruct (add_child p B st1) as [st2 [rb|e]] eqn:E2; [|discriminate].
    destruct (add_child p C st2) as [st3 [rc|e]] eqn:E3; [|discriminate].
    intros [= <-].
    destruct (add_child_result _ _ _ _ _ E1) as [_ L1].
    destruct (add_child_result _ _ _ _ _ E2) as [_ L2].
    destruct (add_child_result _ _ _ _ _ E3) as [-> _].
    subst c a. now rewrite L2, L1.
  - intros Hk fuel n old sA sB sC Hold HA HB HC.
    assert (Hk' : kind o' <> KText) by exact Hk.
    assert (Hne : children o' <> [])
      by (simpl; destruct (children o); discriminate).
    rewrite (to_string_node _ _ _ _ _ Hp' Hk' Hne).
    change (children o') with (children o ++ [a; b; c])%list.
    change (attr o') with (attr o). change (kind o') with (kind o).
    set (call := fun q => to_string fuel q (next_level n)).
    set (r0 := to_string_attrib (attr o) (indentation n ++ "<" ++ tag (kind o))
               ++ (">" ++ newline)).
    assert (He : each_child call (children o ++ [a; b; c])%list r0 st'
                 = (st', Ok (r0 ++ old ++ (sA ++ newline) ++ (sB ++ newline)
                               ++ (sC ++ newline)))).
    { rewrite each_child_app.
      assert (Ho1 : each_child call (children o) r0 st' = (st', Ok (r0 ++ old)))
        by (rewrite each_child_acc; fold call in Hold; now rewrite Hold).
      rewrite (bind_ok _ _ _ _ _ Ho1). simpl each_child.
      rewrite (bind_ok _ _ _ _ _ HA), (bind_ok _ _ _ _ _ HB),
              (bind_ok _ _ _ _ _ HC).
      unfold ret. now rewrite !append_assoc. }
    rewrite (bind_ok _ _ _ _ _ He). unfold ret, r0.
    now rewrite !append_assoc.
Qed.

Lemma C8_witness :
  to_string 2 0 0 C8_store
  = (C8_store,
     Ok ("<svg xmlns=" ++ quote ++ "http://www.w3.org/2000/svg" ++ quote
         ++ ">" ++ newline
         ++ ""
         ++ (String tab "<rect />") ++ newline
         ++ (String tab "<text x=" ++ quote ++ "1.000000" ++ quote
             ++ " y=" ++ quote ++ "2.000000" ++ quote ++ ">hi</text>") ++ newline
         ++ (String tab "<g />") ++ newline
         ++ "" ++ "</" ++ "svg" ++ ">")).
Proof.
  refine (proj2 (proj2 (proj2 (proj2 (proj2 (proj2
            (C8_add_child_order [SVG_default] 0 SVG_default Rect_default
               (Text_make (ratio 1 1) (ratio 2 1) "hi") Group_default
               eq_refl))))))
            _ 1 0%N "" _ _ _ _ _ _ _);
    [discriminate | reflexivity ..].
Defined.

(** [Text::to_string] prints no child: children added to a text label do
    not show in its text. *)
Example Text_prints_no_child :
  snd ((add_children 0 [Rect_default; Group_default] ;;; to_string 2 0 0)
         [Text_make (ratio 1 1) (ratio 2 1) "hi"])
  = Ok ("<text x=" ++ quote ++ "1.000000" ++ quote
        ++ " y=" ++ quote ++ "2.000000" ++ quote ++ ">hi</text>").
Proof. reflexivity. Qed.

(** ** The stored copy and the caller's node *)





Lemma each_child_transfer (call1 call2 : addr -> Meth Store string)
      (cs : list addr) (st st2 : Store) :
  (forall c st0, fst (call1 c st0) = st0) ->
  (forall c b, In c cs -> call1 c st = (st, Ok b) -> call2 c st2 = (st2, Ok b)) ->
  forall r0 st' s,
    each_child call1 cs r0 st = (st', Ok s) ->
    each_child call2 cs r0 st2 = (st2, Ok s).
Proof.
  intros Hst. induction cs as [|c cs IH]; intros Hc r0 st' s; simpl.
  - unfold ret. now intros [= _ <-].
  - unfold bind. pose proof (Hst c st) as Hs.
    destruct (call1 c st) as [st1 [b|e]] eqn:E; [|discriminate].
    simpl in Hs. subst st1.
    rewrite (Hc c b (or_introl eq_refl) E).
    apply IH. intros c' b' Hin. apply Hc. now right.
Qed.

Lemma to_string_extend (st l : Store) (p : addr) (o' : Object) (fuel : nat) :
  forall q n s,
    to_string fuel q n st = (st, Ok s) ->
    ~ reach st q p ->
    to_string fuel q n (update p o' (st ++ l)%list)
    = (update p o' (st ++ l)%list, Ok s).
Proof.
  induction fuel as [|fuel IH]; intros q n s H Hr; [discriminate|].
  assert (Hqp : q <> p) by (intros ->; apply Hr, reach_here).
  destruct (nth_error st q) as [oq|] eqn:Hq;
    [|rewrite (to_string_bad_pointer _ _ _ _ Hq) in H; discriminate].
  pose proof (nth_error_in_range _ _ _ Hq) as Hlt.
  assert (Hq2 : nth_error (update p o' (st ++ l)%list) q = Some oq)
    by (rewrite nth_error_update_other by exact Hqp;
        now rewrite nth_error_app1 by exact Hlt).
  destruct (kind_text_dec (kind oq)) as [Hk|Hk].
  - rewrite (to_string_text _ _ _ _ _ Hq Hk) in H.
    rewrite (to_string_text _ _ _ _ _ Hq2 Hk). now injection H as <-.
  - destruct (children oq) as [|c cs] eqn:Ec.
    + rewrite (to_string_leaf _ _ _ _ _ Hq Hk Ec) in H.
      rewrite (to_string_leaf _ _ _ _ _ Hq2 Hk Ec). now injection H as <-.
    + assert (Hne : children oq <> []) by (rewrite Ec; discriminate).
      rewrite (to_string_node _ _ _ _ _ Hq Hk Hne) in H.
      rewrite (to_string_node _ _ _ _ _ Hq2 Hk Hne).
      unfold bind in *.
      destruct (each_child (fun c1 => to_string fuel c1 (next_level n))
                  (children oq) _ st) as [st1 [body|e]] eqn:E; [|discriminate].
      rewrite (each_child_transfer _
                 (fun c1 => to_string fuel c1 (next_level n))
                 (children oq) st (update p o' (st ++ l)%list)
                 (fun c1 st0 => to_string_state fuel c1 (next_level n) st0)
                 (fun c1 b Hin Hb =>
                    IH c1 (next_level n) b Hb
                       (fun Hr1 => Hr (reach_child st q oq c1 p Hq Hin Hr1)))
                 _ _ _ E).
      unfold ret in *. now injection H as _ <-.
Qed.





(** The copy is made member by member: the children of the stored copy are
    the children of the caller's node, the same nodes.  A write to such a
    child, here through the pointer the caller's group holds, shows in the
    text of the parent. *)
Example add_child_shares_children :
  let st1 := fst (add_child 0 (with_children Group_default [2]) shared_store) in
  let st2 := fst (invoke 2 (Element.set_attr "fill" (VText "red")) st1) in
  snd (to_string 3 0 0 st1)
  = Ok ("<svg xmlns=" ++ quote ++ "http://www.w3.org/2000/svg" ++ quote ++ ">"
        ++ newline ++ String tab "<g>" ++ newline
        ++ String tab (String tab "<rect />") ++ newline
        ++ String tab "</g>" ++ newline ++ "</svg>") /\
  snd (to_string 3 0 0 st2)
  = Ok ("<svg xmlns=" ++ quote ++ "http://www.w3.org/2000/svg" ++ quote ++ ">"
        ++ newline ++ String tab "<g>" ++ newline
        ++ String tab (String tab ("<rect fill=" ++ quote ++ "red" ++ quote ++ " />"))
        ++ newline
        ++ String tab "</g>" ++ newline ++ "</svg>").
Proof. split; reflexivity. Qed.

(** * Further properties *)

(** ** The shape of the text *)

Lemma to_string_attrib_acc (m : StdMap.t) :
  forall r, to_string_attrib m r = r ++ attrib_text m.
Proof.
  unfold attrib_text, to_string_attrib.
  induction m as [|it m IH]; intros r; cbn [fold_left].
  - now rewrite append_empty_r.
  - rewrite (IH (r ++ _)), (IH ("" ++ _)). simpl. now rewrite append_assoc.
Qed.

Lemma each_child_blocks (call : addr -> Meth Store string) (cs : list addr)
      (st : Store) :
  (forall c st0, fst (call c st0) = st0) ->
  forall r0 s,
    each_child call cs r0 st = (st, Ok s) <->
    exists blocks,
      Forall2 (fun c b => call c st = (st, Ok b)) cs blocks /\
      s = r0 ++ join_blocks blocks.
Proof.
  intros Hst. induction cs as [|c cs IH]; intros r0 s; simpl.
  - split.
    + intros [= <-]. exists []. split; [constructor|].
      simpl. now rewrite append_empty_r.
    + intros (blocks & HF & ->). inversion HF; subst. simpl.
      now rewrite append_empty_r.
  - unfold bind. pose proof (Hst c st) as Hc.
    destruct (call c st) as [st1 [b|e]] eqn:E; simpl in Hc; subst st1.
    + rewrite IH. split.
      * intros (blocks & HF & ->). exists (b :: blocks). split.
        -- now constructor.
        -- simpl. now rewrite !append_assoc.
      * intros (blocks & HF & ->). inversion HF as [|c0 b0 cs0 bs0 Hb HF']; subst.
        assert (b0 = b) by congruence. subst b0.
        exists bs0. split; [exact HF'|]. simpl. now rewrite !append_assoc.
    + split; [discriminate|].
      intros (blocks & HF & _). inversion HF; subst. congruence.
Qed.

Lemma to_string_keeps (fuel : nat) (n : N) :
  forall c st0, fst (to_string fuel c n st0) = st0.
Proof. intros c st0. apply to_string_state. Qed.

(** X1.  The text of a node that is not a text label: with no child it is
    the self-closed tag with the attributes; with children it is the open
    tag with the attributes, a line feed, the text of each child at the
    next level followed by a line feed, in the order of [children], and the
    closing tag at the level of the node; and there is a text exactly when
    every child has one. *)
Theorem to_string_shape (fuel : nat) (p : addr) (n : N) (st : Store)
        (o : Object) (s : string) :
  nth_error st p = Some o -> kind o <> KText ->
  (children o = [] ->
   to_string (S fuel) p n st
   = (st, Ok (indentation n ++ "<" ++ tag (kind o) ++ attrib_text (attr o)
              ++ " />"))) /\
  (children o <> [] ->
   (to_string (S fuel) p n st = (st, Ok s) <->
    exists blocks,
      Forall2 (fun c b => to_string fuel c (next_level n) st = (st, Ok b))
              (children o) blocks /\
      s = indentation n ++ "<" ++ tag (kind o) ++ attrib_text (attr o)
          ++ ">" ++ newline ++ join_blocks blocks
          ++ indentation n ++ "</" ++ tag (kind o) ++ ">")).
Proof.
  intros Ho Hk. split.
  - intros Hc. rewrite (to_string_leaf _ _ _ _ _ Ho Hk Hc).
    rewrite to_string_attrib_acc. now rewrite !append_assoc.
  - intros Hc. rewrite (to_string_node _ _ _ _ _ Ho Hk Hc).
    set (call := fun c => to_string fuel c (next_level n)).
    set (r0 := to_string_attrib (attr o) (indentation n ++ "<" ++ tag (kind o))
               ++ (">" ++ newline)).
    pose proof (each_child_blocks call (children o) st
                  (to_string_keeps fuel (next_level n)) r0) as Hb.
    pose proof (each_child_state call (children o)
                  (fun c st0 _ => to_string_keeps fuel (next_level n) c st0)
                  r0 st) as Hs.
    unfold bind.
    destruct (each_child call (children o) r0 st) as [st1 [body|e]] eqn:E;
      simpl in Hs; subst st1.
    + destruct (proj1 (Hb body) eq_refl) as (blocks & HF & Hbody).
      unfold ret. split.
      * intros [= <-]. exists blocks. split; [exact HF|].
        rewrite Hbody. unfold r0. rewrite to_string_attrib_acc.
        now rewrite !append_assoc.
      * intros (blocks' & HF' & ->).
        assert (Hb' : (st, Ok body) = (st, Ok (r0 ++ join_blocks blocks')))
          by (apply Hb; exists blocks'; now split).
        injection Hb' as ->. unfold r0. rewrite to_string_attrib_acc.
        now rewrite !append_assoc.
    + split; [discriminate|].
      intros (blocks' & HF' & _).
      assert (Hb' : (st, Throw e) = (st, Ok (r0 ++ join_blocks blocks')))
        by (apply Hb; exists blocks'; now split).
      discriminate.
Qed.
(** ** When serialisation returns *)

Lemma each_child_ok_inv (call : addr -> Meth Store string) (cs : list addr)
      (st : Store) :
  (forall c st0, fst (call c st0) = st0) ->
  forall r0 st' s,
    each_child call cs r0 st = (st', Ok s) ->
    forall c, In c cs -> exists b, call c st = (st, Ok b).
Proof.
  intros Hst. induction cs as [|c cs IH]; intros r0 st' s H c0 Hin;
    [destruct Hin|].
  simpl in H. unfold bind in H. pose proof (Hst c st) as Hc.
  destruct (call c st) as [st1 [b|e]] eqn:E; [|discriminate].
  simpl in Hc. subst st1. destruct Hin as [<-|Hin].
  - now exists b.
  - now apply (IH _ _ _ H).
Qed.

Lemma common_budget (st : Store) (cs : list addr) :
  (forall c, In c cs ->
     exists fuel, forall fuel' n, fuel <= fuel' ->
       exists s, to_string fuel' c n st = (st, Ok s)) ->
  exists fuel, forall c, In c cs -> forall fuel' n, fuel <= fuel' ->
     exists s, to_string fuel' c n st = (st, Ok s).
Proof.
  induction cs as [|c cs IH]; intros H.
  - exists 0. intros c [].
  - destruct (H c (or_introl eq_refl)) as [f1 H1].
    destruct IH as [f2 H2]; [intros c' Hin; apply H; now right|].
    exists (Nat.max f1 f2). intros c' [<-|Hin] fuel' n Hle.
    + apply H1. lia.
    + apply (H2 c' Hin). lia.
Qed.

Lemma renders_returns (st : Store) (p : addr) :
  renders st p ->
  exists fuel, forall fuel' n, fuel <= fuel' ->
    exists s, to_string fuel' p n st = (st, Ok s).
Proof.
  induction 1 as [p o Ho Hc IH].
  destruct (kind_text_dec (kind o)) as [Hk|Hk].
  - exists 1. intros [|fuel'] n Hle; [lia|].
    eexists. apply (to_string_text _ _ _ _ _ Ho Hk).
  - destruct (common_budget st (children o) (IH Hk)) as [fuel Hf].
    exists (S fuel). intros [|fuel'] n Hle; [lia|].
    destruct (children o) as [|c cs] eqn:Ec.
    + eexists. apply (to_string_leaf _ _ _ _ _ Ho Hk Ec).
    + assert (Hne : children o <> []) by (rewrite Ec; discriminate).
      rewrite (to_string_node _ _ _ _ _ Ho Hk Hne). rewrite Ec.
      destruct (each_child_ok (fun c0 => to_string fuel' c0 (next_level n))
                  (c :: cs) st
                  (fun c0 Hin => Hf c0 Hin fuel' (next_level n) ltac:(lia))
                  (to_string_attrib (attr o)
                     (indentation n ++ "<" ++ tag (kind o)) ++ (">" ++ newline)))
        as [body Hb].
      rewrite (bind_ok _ _ _ _ _ Hb). eexists. reflexivity.
Qed.

Lemma returns_renders (fuel : nat) :
  forall (st : Store) (p : addr) (n : N) (s : string),
    snd (to_string fuel p n st) = Ok s -> renders st p.
Proof.
  induction fuel as [|fuel IH]; intros st p n s H; [discriminate|].
  destruct (nth_error st p) as [o|] eqn:Ho.
  - apply (renders_node st p o Ho). intros Hk c Hin.
    destruct (children o) as [|c0 cs] eqn:Ec; [destruct Hin|].
    assert (Hne : children o <> []) by (rewrite Ec; discriminate).
    rewrite (to_string_node _ _ _ _ _ Ho Hk Hne) in H. unfold bind in H.
    destruct (each_child (fun c1 => to_string fuel c1 (next_level n))
                (children o) _ st) as [st1 [body|e]] eqn:E; [|discriminate].
    rewrite Ec in E.
    destruct (each_child_ok_inv _ _ st
                (fun c1 st0 => to_string_state fuel c1 (next_level n) st0)
                _ _ _ E c Hin) as [b Hb].
    apply (IH st c (next_level n) b). now rewrite Hb.
  - rewrite (to_string_bad_pointer _ _ _ _ Ho) in H. discriminate.
Qed.

(** X2.  Serialising [p] returns a text exactly when what it visits below
    [p] is a finite tree of nodes: on such a tree it returns at every
    sufficient depth and every level of indentation, and a text returned at
    any depth shows the tree to be such. *)
Theorem to_string_returns_iff_renders (st : Store) (p : addr) :
  (renders st p ->
   exists fuel, forall fuel' n, fuel <= fuel' ->
     exists s, to_string fuel' p n st = (st, Ok s)) /\
  (forall fuel n s, snd (to_string fuel p n st) = Ok s -> renders st p).
Proof.
  split; [apply renders_returns|].
  intros fuel n s. apply returns_renders.
Qed.

(** ** Cycles *)

(** X3.  Passing a node to [add_child] of one of its own children closes a
    cycle: the stored copy holds the same child pointers as the node, so the
    child becomes a descendant of itself, and serialising it returns at no
    depth. *)
Theorem add_child_to_own_child_never_returns (st : Store) (c : addr)
        (oc node : Object) :
  nth_error st c = Some oc ->
  In c (children node) ->
  kind oc <> KText -> kind node <> KText ->
  let st1 := fst (add_child c node st) in
  ~ renders st1 c /\
  forall fuel n s, snd (to_string fuel c n st1) <> Ok s.
Proof.
  intros Hc Hin Hkc Hkn st1.
  pose proof (nth_error_in_range _ _ _ Hc) as Hlt.
  assert (E1 : st1 = update c (with_children oc
                                 (children oc ++ [List.length st]))
                            (st ++ [node])%list)
    by (unfold st1; now rewrite (add_child_eq _ _ _ _ Hc)).
  assert (Hc1 : nth_error st1 c
                = Some (with_children oc (children oc ++ [List.length st]))).
  { rewrite E1. apply nth_error_update_same. rewrite length_app. simpl. lia. }
  assert (Hk1 : nth_error st1 (List.length st) = Some node).
  { rewrite E1. rewrite nth_error_update_other by lia.
    rewrite nth_error_app2 by lia. now rewrite Nat.sub_diag. }
  assert (Hno : forall q, renders st1 q -> q = c \/ q = List.length st -> False).
  { induction 1 as [q o Ho Hch IH]. intros [->| ->].
    - rewrite Hc1 in Ho. injection Ho as <-.
      apply (IH Hkc (List.length st)).
      + simpl. apply in_or_app. right. now left.
      + now right.
    - rewrite Hk1 in Ho. injection Ho as <-.
      apply (IH Hkn c Hin). now left. }
  split.
  - intros Hr. apply (Hno c Hr). now left.
  - intros fuel n s H. apply (Hno c); [|now left].
    now apply (returns_renders fuel st1 c n s).
Qed.

(** A caller's node that lies below itself.  The node [c] points to in
    [cycle_store] is no node of the tree below the root, but it is a child
    of its own child; once it is passed to [add_child] of the root, the tree
    below the root holds the cycle and serialising the root returns at no
    depth, until the caller empties the children of its node. *)
Example add_child_of_node_below_itself :
  let node := with_children Group_default [3] in
  let st1 := fst (add_child 0 node cycle_store) in
  let st2 := fst (invoke 2 clear_children st1) in
  nth_error cycle_store 2 = Some node /\
  ~ reach cycle_store 0 2 /\
  reach cycle_store 3 2 /\
  (forall fuel n s, snd (to_string fuel 0 n st1) <> Ok s) /\
  snd (to_string 4 0 0 st2)
  = Ok ("<svg xmlns=" ++ quote ++ "http://www.w3.org/2000/svg" ++ quote ++ ">"
        ++ newline ++ String tab "<g>"
        ++ newline ++ String tab (String tab "<g>")
        ++ newline ++ String tab (String tab (String tab "<g />"))
        ++ newline ++ String tab (String tab "</g>")
        ++ newline ++ String tab "</g>"
        ++ newline ++ "</svg>").
Proof.
  cbv zeta. split; [reflexivity|]. split; [|split; [|split; [|reflexivity]]].
  - intros H. inversion H as [|p0 o0 c0 q0 Hn Hin Hr]; subst.
    injection Hn as <-. destruct Hin.
  - apply (reach_child cycle_store 3 (with_children Group_default [2]) 2 2
             eq_refl); [now left|apply reach_here].
  - intros fuel n s H. apply returns_renders in H.
    assert (Hno : forall st q, renders st q ->
              st = fst (add_child 0 (with_children Group_default [3]) cycle_store) ->
              q = 2 \/ q = 3 -> False).
    { induction 1 as [q o Ho Hch IH]. intros -> [->| ->].
      - injection Ho as <-.
        apply (IH ltac:(discriminate) 3 (or_introl eq_refl) eq_refl). now right.
      - injection Ho as <-.
        apply (IH ltac:(discriminate) 2 (or_introl eq_refl) eq_refl). now left. }
    inversion H as [p0 o0 Hn Hc]; subst. injection Hn as <-.
    specialize (Hc ltac:(discriminate) 4 (or_introl eq_refl)).
    inversion Hc as [p1 o1 Hn1 Hc1]; subst. injection Hn1 as <-.
    specialize (Hc1 ltac:(discriminate) 3 (or_introl eq_refl)).
    apply (Hno _ 3 Hc1 eq_refl). now right.
Qed.

(** ** Dangling pointers *)

Lemma each_child_no_bad_pointer (call : addr -> Meth Store string)
      (cs : list addr) (st : Store) :
  (forall c st0, fst (call c st0) = st0) ->
  (forall c, In c cs ->
     (exists s, snd (call c st) = Ok s) \/ snd (call c st) = Throw out_of_fuel) ->
  forall r0,
    (exists s, snd (each_child call cs r0 st) = Ok s) \/
    snd (each_child call cs r0 st) = Throw out_of_fuel.
Proof.
  intros Hst. induction cs as [|c cs IH]; intros Hc r0; simpl.
  - left. now exists r0.
  - unfold bind. pose proof (Hst c st) as Hs.
    destruct (Hc c (or_introl eq_refl)) as [[s Hs1]|Hs1];
      destruct (call c st) as [st1 [b|e]]; simpl in *; subst;
      try discriminate.
    + apply IH. intros c' Hin. apply Hc. now right.
    + right. exact Hs1.
Qed.

(** X4.  In a store where every child pointer owns a node, serialising a
    node never meets a pointer without node: it returns a text or, on a
    cycle or at too small a depth, runs out of depth. *)
Theorem to_string_closed (st : Store) :
  closed st ->
  forall fuel p n, p < List.length st ->
    (exists s, snd (to_string fuel p n st) = Ok s) \/
    snd (to_string fuel p n st) = Throw out_of_fuel.
Proof.
  intros Hcl. induction fuel as [|fuel IH]; intros p n Hp; [now right|].
  destruct (nth_error st p) as [o|] eqn:Ho;
    [|apply nth_error_None in Ho; lia].
  destruct (kind_text_dec (kind o)) as [Hk|Hk].
  - left. rewrite (to_string_text _ _ _ _ _ Ho Hk). eexists. reflexivity.
  - destruct (children o) as [|c cs] eqn:Ec.
    + left. rewrite (to_string_leaf _ _ _ _ _ Ho Hk Ec). eexists. reflexivity.
    + assert (Hne : children o <> []) by (rewrite Ec; discriminate).
      rewrite (to_string_node _ _ _ _ _ Ho Hk Hne). unfold bind.
      match goal with
      | |- context [each_child ?f ?l ?r ?s0] =>
          destruct (each_child_no_bad_pointer f l s0
                      (fun c1 st0 => to_string_state fuel c1 (next_level n) st0)
                      (fun c1 Hin => IH c1 (next_level n) (Hcl p o c1 Ho Hin))
                      r) as [[b Hb]|Hb];
          destruct (each_child f l r s0) as [st1 [body|e]]; simpl in *;
          try discriminate
      end.
      * left. eexists. reflexivity.
      * right. exact Hb.
Qed.

(** X5.  [add_child] keeps the store free of dangling pointers: when every
    child pointer owns a node, and so do the child pointers of the node
    passed, the same holds after the call. *)
Theorem add_child_closed (st : Store) (p : addr) (o node : Object) :
  closed st ->
  nth_error st p = Some o ->
  (forall c, In c (children node) -> c < List.length st) ->
  closed (fst (add_child p node st)).
Proof.
  intros Hcl Ho Hn. pose proof (nth_error_in_range _ _ _ Ho) as Hp.
  rewrite (add_child_eq _ _ _ _ Ho). simpl fst.
  intros q oq c Hq Hin.
  rewrite update_length, length_app. simpl List.length.
  destruct (Nat.eq_dec q p) as [->|Hqp].
  - rewrite nth_error_update_same in Hq by (rewrite length_app; simpl; lia).
    injection Hq as <-. simpl in Hin. apply in_app_or in Hin.
    destruct Hin as [Hin|[<-|[]]]; [|lia].
    pose proof (Hcl p o c Ho Hin). lia.
  - rewrite nth_error_update_other in Hq by exact Hqp.
    destruct (Nat.lt_ge_cases q (List.length st)) as [Hlt|Hge].
    + rewrite nth_error_app1 in Hq by exact Hlt.
      pose proof (Hcl q oq c Hq Hin). lia.
    + rewrite nth_error_app2 in Hq by exact Hge.
      destruct (q - List.length st) as [|k] eqn:Ek; simpl in Hq.
      * injection Hq as <-. pose proof (Hn c Hin). lia.
      * destruct k; discriminate.
Qed.
(** ** [add_child] and the rest of the store *)

(** X6.  [add_child] on [p] touches two places of the store only: the
    child list of [p] and the new address.  Every other node is what it
    was, and every node from which [p] cannot be reached serialises to the
    text it had. *)
Theorem add_child_frame (st : Store) (p : addr) (o node : Object) :
  nth_error st p = Some o ->
  let st1 := fst (add_child p node st) in
  (forall q, q <> p -> q < List.length st -> nth_error st1 q = nth_error st q) /\
  (forall fuel q n s,
      ~ reach st q p ->
      to_string fuel q n st = (st, Ok s) ->
      to_string fuel q n st1 = (st1, Ok s)).
Proof.
  intros Ho st1. unfold st1. rewrite (add_child_eq _ _ _ _ Ho). simpl fst.
  split.
  - intros q Hqp Hlt. rewrite nth_error_update_other by exact Hqp.
    now rewrite nth_error_app1 by exact Hlt.
  - intros fuel q n s Hr H. now apply to_string_extend.
Qed.

(** X7.  [add_child(n1, ..., nk)] with any number of arguments stores the
    copy of the i-th argument at the i-th new address and appends the new
    addresses, in the order of the arguments, to the children the node at
    [p] had; the members of [p] other than [children] are left alone. *)
Theorem add_children_any_arity (st : Store) (p : addr) (o : Object)
        (nodes : list Object) :
  nth_error st p = Some o ->
  let st' := fst (add_children p nodes st) in
  snd (add_children p nodes st) = Ok tt /\
  List.length st' = List.length st + List.length nodes /\
  nth_error st' p
  = Some (with_children o
            (children o ++ seq (List.length st) (List.length nodes))%list) /\
  (forall i, i < List.length nodes ->
     nth_error st' (List.length st + i) = nth_error nodes i).
Proof.
  intros Ho st'. unfold st'. rewrite (add_children_eq nodes st p o Ho).
  pose proof (nth_error_in_range _ _ _ Ho) as Hp.
  simpl fst. simpl snd. repeat split.
  - rewrite update_length. apply length_app.
  - apply nth_error_update_same. rewrite length_app. lia.
  - intros i Hi. rewrite nth_error_update_other by lia.
    rewrite nth_error_app2 by lia. f_equal. lia.
Qed.

(** ** Instances *)

Lemma to_string_shape_witness :
  to_string 2 0 0 C8_store
  = (C8_store,
     Ok (indentation 0 ++ "<" ++ tag KSVG
         ++ attrib_text (attr SVG_default) ++ ">" ++ newline
         ++ join_blocks
              [String tab "<rect />";
               String tab "<text x=" ++ quote ++ "1.000000" ++ quote
               ++ " y=" ++ quote ++ "2.000000" ++ quote ++ ">hi</text>";
               String tab "<g />"]
         ++ indentation 0 ++ "</" ++ tag KSVG ++ ">")).
Proof.
  apply (proj2 (to_string_shape 1 0 0 C8_store
                  (with_children SVG_default [1; 2; 3]) _ eq_refl
                  ltac:(discriminate))
               ltac:(discriminate)).
  eexists. split; [|reflexivity].
  repeat constructor.
Defined.

Lemma finite_tree_renders (st : Store) (p : addr) :
  finite_tree st p -> renders st p.
Proof.
  induction 1 as [p o Ho Hc IH]. apply (renders_node st p o Ho).
  intros _. exact IH.
Qed.

Lemma to_string_returns_iff_renders_witness :
  exists fuel, forall fuel' n, fuel <= fuel' ->
    exists s, to_string fuel' 0 n example_store = (example_store, Ok s).
Proof.
  exact (proj1 (to_string_returns_iff_renders example_store 0)
           (finite_tree_renders _ _ finite_tree_example)).
Defined.

Lemma add_child_to_own_child_never_returns_witness :
  let st1 := fst (add_child 1 (with_children Group_default [1]) nested_store) in
  ~ renders st1 1 /\
  forall fuel n s, snd (to_string fuel 1 n st1) <> Ok s.
Proof.
  apply (add_child_to_own_child_never_returns nested_store 1 Group_default
           (with_children Group_default [1]) eq_refl).
  - now left.
  - discriminate.
  - discriminate.
Defined.

Lemma closed_example_store : closed example_store.
Proof.
  intros p o c Hp Hin.
  do 5 (destruct p as [|p];
        [injection Hp as <-; simpl in Hin;
         repeat (destruct Hin as [<-|Hin]; [simpl; lia|]); destruct Hin|]).
  destruct p; discriminate.
Defined.

Lemma to_string_closed_witness :
  (exists s, snd (to_string 3 0 0 example_store) = Ok s) \/
  snd (to_string 3 0 0 example_store) = Throw out_of_fuel.
Proof.
  apply (to_string_closed example_store closed_example_store 3 0 0%N).
  simpl. lia.
Defined.

Lemma add_child_closed_witness :
  closed (fst (add_child 0 (with_children Group_default [4]) example_store)).
Proof.
  apply (add_child_closed example_store 0 _ (with_children Group_default [4])
           closed_example_store eq_refl).
  intros c [<-|[]]. simpl. lia.
Defined.

Lemma C10_store_group_apart : ~ reach C10_store 1 0.
Proof.
  intros H. inversion H as [|p0 o0 c0 q0 Hn Hin Hr]; subst.
  injection Hn as <-. destruct Hin.
Defined.

Lemma add_child_frame_witness :
  to_string 1 1 0 (fst (add_child 0 Rect_default C10_store))
  = (fst (add_child 0 Rect_default C10_store), Ok "<g />").
Proof.
  apply (proj2 (add_child_frame C10_store 0 SVG_default Rect_default eq_refl)
               1 1 0%N "<g />" C10_store_group_apart).
  reflexivity.
Defined.

Lemma add_children_any_arity_witness :
  nth_error (fst (add_children 0 [Rect_default; Group_default] [SVG_default])) 0
  = Some (with_children SVG_default
            (children SVG_default ++ seq 1 2)%list).
Proof.
  exact (proj1 (proj2 (proj2
           (add_children_any_arity [SVG_default] 0 SVG_default
              [Rect_default; Group_default] eq_refl)))).
Defined.

(** ** The order of writes to the attribute map *)
Module StdMapOrder.

Lemma compare_lt_neq (k k' : string) :
  String.compare k k' = Lt -> String.eqb k k' = false.
Proof. intros H. apply StdMapFacts.compare_neq. congruence. Qed.

Lemma find_keys_above (k : string) (m : StdMap.t) :
  StdMap.keys_above k m -> StdMap.find k m = None.
Proof.
  induction m as [|[k' v'] m IH]; simpl; [reflexivity|].
  intros [Hlt Hm]. rewrite (compare_lt_neq _ _ Hlt). now apply IH.
Qed.

(** Two maps with keys in order that answer every [find] alike are the
    same map. *)
Lemma sorted_ext (m1 : StdMap.t) :
  forall m2,
    StdMap.sorted m1 -> StdMap.sorted m2 ->
    (forall k, StdMap.find k m1 = StdMap.find k m2) -> m1 = m2.
Proof.
  induction m1 as [|[k1 v1] m1 IH]; intros [|[k2 v2] m2] H1 H2 Hf.
  - reflexivity.
  - specialize (Hf k2). simpl in Hf. rewrite String.eqb_refl in Hf. discriminate.
  - specialize (Hf k1). simpl in Hf. rewrite String.eqb_refl in Hf. discriminate.
  - destruct H1 as [A1 S1]. destruct H2 as [A2 S2].
    destruct (String.compare k1 k2) eqn:E.
    + apply String.compare_eq_iff in E. subst k2.
      pose proof (Hf k1) as Hv. simpl in Hv. rewrite String.eqb_refl in Hv.
      injection Hv as <-. f_equal. apply IH; try assumption.
      intros k. destruct (String.eqb k k1) eqn:Ek.
      * apply String.eqb_eq in Ek. subst k.
        now rewrite (find_keys_above _ _ A1), (find_keys_above _ _ A2).
      * specialize (Hf k). simpl in Hf. now rewrite Ek in Hf.
    + specialize (Hf k1). simpl in Hf. rewrite String.eqb_refl in Hf.
      rewrite (compare_lt_neq _ _ E) in Hf.
      rewrite (find_keys_above k1 m2) in Hf; [discriminate|].
      now apply (StdMapFacts.keys_above_trans k1 k2).
    + assert (E' : String.compare k2 k1 = Lt)
        by (rewrite String.compare_antisym, E; reflexivity).
      specialize (Hf k2). simpl in Hf. rewrite String.eqb_refl in Hf.
      rewrite (compare_lt_neq _ _ E') in Hf.
      rewrite (find_keys_above k2 m1) in Hf; [discriminate|].
      now apply (StdMapFacts.keys_above_trans k2 k1).
Qed.

Lemma assign_assign_same (k v1 v2 : string) (m : StdMap.t) :
  StdMap.assign k v2 (StdMap.assign k v1 m) = StdMap.assign k v2 m.
Proof.
  induction m as [|[k' v'] m IH]; simpl.
  - now rewrite StdMapFacts.compare_refl.
  - destruct (String.compare k k') eqn:E; simpl.
    + now rewrite StdMapFacts.compare_refl.
    + now rewrite StdMapFacts.compare_refl.
    + rewrite E. now rewrite IH.
Qed.

Lemma assign_assign_other (k1 k2 v1 v2 : string) (m : StdMap.t) :
  StdMap.sorted m -> k1 <> k2 ->
  StdMap.assign k1 v1 (StdMap.assign k2 v2 m)
  = StdMap.assign k2 v2 (StdMap.assign k1 v1 m).
Proof.
  intros Hs Hne. apply sorted_ext.
  - now do 2 apply StdMapFacts.sorted_assign.
  - now do 2 apply StdMapFacts.sorted_assign.
  - intros k.
    destruct (String.eqb k k1) eqn:E1; [apply String.eqb_eq in E1; subst k|].
    + rewrite StdMapFacts.find_assign_same.
      rewrite StdMapFacts.find_assign_other by exact Hne.
      now rewrite StdMapFacts.find_assign_same.
    + apply String.eqb_neq in E1.
      rewrite (StdMapFacts.find_assign_other k1 k) by exact E1.
      destruct (String.eqb k k2) eqn:E2; [apply String.eqb_eq in E2; subst k|].
      * now rewrite !StdMapFacts.find_assign_same.
      * apply String.eqb_neq in E2.
        rewrite !(StdMapFacts.find_assign_other k2 k) by exact E2.
        now rewrite (StdMapFacts.find_assign_other k1 k) by exact E1.
Qed.

End StdMapOrder.

(** X8.  The node after two [set_attr] calls on different names does not
    depend on the order of the calls, and after two calls on one name it is
    the node after the second call alone: attributes carry no trace of the
    order in which they were set. *)
Theorem set_attr_order (o : Object) (k1 k2 : string) (v1 v2 : value) :
  StdMap.sorted (attr o) ->
  (k1 <> k2 ->
   fst ((Element.set_attr k1 v1 ;;; Element.set_attr k2 v2) o)
   = fst ((Element.set_attr k2 v2 ;;; Element.set_attr k1 v1) o)) /\
  fst ((Element.set_attr k1 v1 ;;; Element.set_attr k1 v2) o)
  = fst (Element.set_attr k1 v2 o).
Proof.
  intros Hs. split.
  - intros Hne.
    rewrite !(bind_ok _ _ _ _ _ (set_attr_eq _ _ _)), !set_attr_eq.
    unfold with_attr. simpl. f_equal.
    symmetry. now apply StdMapOrder.assign_assign_other.
  - rewrite !(bind_ok _ _ _ _ _ (set_attr_eq _ _ _)), !set_attr_eq.
    unfold with_attr. simpl. f_equal.
    apply StdMapOrder.assign_assign_same.
Qed.

Lemma sorted_Rect_default : StdMap.sorted (attr Rect_default).
Proof. exact I. Defined.

Lemma set_attr_order_witness :
  fst ((Element.set_attr "width" (VInt 3) ;;; Element.set_attr "height" (VInt 4))
         Rect_default)
  = fst ((Element.set_attr "height" (VInt 4) ;;; Element.set_attr "width" (VInt 3))
           Rect_default).
Proof.
  apply (proj1 (set_attr_order Rect_default "width" "height" (VInt 3) (VInt 4)
                  sorted_Rect_default)).
  discriminate.
Defined.

(** ** The keys of the attribute map stay in order *)

Lemma start_attr (x y : num) (o : Object) :
  attr (fst (Path.start x y o))
  = StdMap.assign "d" ("M " ++ num_text x ++ " " ++ num_text y) (attr o).
Proof. reflexivity. Qed.

Lemma line_to_sorted (x y : num) (o : Object) :
  StdMap.sorted (attr o) -> StdMap.sorted (attr (fst (Path.line_to x y o))).
Proof.
  intros Hs. destruct (StdMap.find "d" (attr o)) as [d0|] eqn:Hd.
  - rewrite (line_to_present _ _ _ _ Hd). simpl.
    now apply StdMapFacts.sorted_assign.
  - rewrite (line_to_absent _ _ _ Hd), start_attr.
    now apply StdMapFacts.sorted_assign.
Qed.

(** X9.  The attribute map of every node the constructors build has its
    keys in strictly increasing order, and [set_attr], [start], [line_to],
    [to_origin] and the reads of [Line] (also one that inserts an absent
    key) keep them so: a node never holds an attribute name twice, and
    [to_string] prints the attributes in increasing order of name. *)
Theorem attr_sorted_invariant :
  (forall x1 x2 y1 y2 x y w h r t x0 y0,
      StdMap.sorted (attr SVG_default) /\
      StdMap.sorted (attr Group_default) /\
      StdMap.sorted (attr Line_default) /\
      StdMap.sorted (attr Rect_default) /\
      StdMap.sorted (attr (Path.make x0 y0)) /\
      StdMap.sorted (attr (Line_make x1 x2 y1 y2)) /\
      StdMap.sorted (attr (Rect_make x y w h)) /\
      StdMap.sorted (attr (Circle_make x y r)) /\
      StdMap.sorted (attr (Text_make x y t))) /\
  (forall (o : Object) (key : string) (v : value) (a b : num),
      StdMap.sorted (attr o) ->
      StdMap.sorted (attr (fst (Element.set_attr key v o))) /\
      StdMap.sorted (attr (fst (Path.start a b o))) /\
      StdMap.sorted (attr (fst (Path.line_to a b o))) /\
      StdMap.sorted (attr (fst (Path.to_origin o))) /\
      StdMap.sorted (attr (fst (Line.x1 o))) /\
      StdMap.sorted (attr (fst (Line.x2 o))) /\
      StdMap.sorted (attr (fst (Line.y1 o))) /\
      StdMap.sorted (attr (fst (Line.y2 o)))).
Proof.
  split.
  - intros. repeat split.
  - intros o key v a b Hs.
    assert (Hi : forall k, StdMap.sorted
                             (attr (fst (bind (attr_index k)
                                           (fun s => lift (stof s)) o)))).
    { intros k. unfold bind.
      pose proof (attr_index_sorted o k Hs) as H.
      destruct (attr_index k o) as [o1 [s|e]]; exact H. }
    repeat split.
    + rewrite set_attr_eq. simpl. now apply StdMapFacts.sorted_assign.
    + rewrite start_attr. now apply StdMapFacts.sorted_assign.
    + now apply line_to_sorted.
    + rewrite to_origin_eq. now apply line_to_sorted.
    + apply Hi.
    + apply Hi.
    + apply Hi.
    + apply Hi.
Qed.

Lemma attr_sorted_invariant_witness :
  StdMap.sorted
    (attr (fst (Element.set_attr "fill" (VText "red") Rect_default))) /\
  StdMap.sorted (attr (fst (Line.x1 Rect_default))).
Proof.
  destruct (proj2 attr_sorted_invariant Rect_default "fill" (VText "red")
              (NInt 0) (NInt 0) sorted_Rect_default)
    as (H1 & _ & _ & _ & H5 & _).
  split; [exact H1|exact H5].
Defined.

(** ** Paths drawn point by point *)

Lemma line_to_each_present (pts : list (num * num)) :
  forall (o : Object) (d0 : string),
    StdMap.find "d" (attr o) = Some d0 ->
    exists o',
      line_to_each pts o = (o', Ok tt) /\
      StdMap.find "d" (attr o') = Some (d0 ++ commands pts) /\
      (forall k, k <> "d" -> StdMap.find k (attr o') = StdMap.find k (attr o)) /\
      (kind o', content o', children o', x_start o', y_start o')
      = (kind o, content o, children o, x_start o, y_start o).
Proof.
  induction pts as [|[x y] pts IH]; intros o d0 Hd.
  - exists o. simpl. rewrite append_empty_r. repeat split. exact Hd.
  - simpl line_to_each.
    rewrite (bind_ok _ _ _ _ _ (line_to_present x y o d0 Hd)).
    set (o1 := with_attr o _).
    assert (Hd1 : StdMap.find "d" (attr o1)
                  = Some (d0 ++ (" L " ++ num_text x ++ " " ++ num_text y)))
      by apply StdMapFacts.find_assign_same.
    destruct (IH o1 _ Hd1) as (o' & Hrun & Hd' & Hk & Hm).
    exists o'. repeat split.
    + exact Hrun.
    + rewrite Hd'. simpl commands. now rewrite !append_assoc.
    + intros k Hne. rewrite (Hk k Hne). unfold o1. simpl.
      now apply StdMapFacts.find_assign_other.
    + exact Hm.
Qed.

(** X10.  On a path whose [d] has the text [d0], a run of [line_to] calls
    makes [d] the text [d0] followed by one [" L x y"] per point, in the
    order of the calls; it leaves the recorded start point, the other
    attributes and the other members as they were.  Hence [start(x, y)],
    any run of [line_to] calls and [to_origin()] end with a line command
    back to [(x, y)] as converted to [float]. *)
Theorem polyline_commands (o : Object) (d0 : string) (x y : num)
        (pts : list (num * num)) :
  (StdMap.find "d" (attr o) = Some d0 ->
   exists o',
     line_to_each pts o = (o', Ok tt) /\
     StdMap.find "d" (attr o') = Some (d0 ++ commands pts) /\
     (forall k, k <> "d" -> StdMap.find k (attr o') = StdMap.find k (attr o)) /\
     (kind o', content o', children o', x_start o', y_start o')
     = (kind o, content o, children o, x_start o, y_start o)) /\
  (exists o',
     (Path.start x y ;;; line_to_each pts ;;; Path.to_origin) o = (o', Ok tt) /\
     StdMap.find "d" (attr o')
     = Some ("M " ++ num_text x ++ " " ++ num_text y ++ commands pts
             ++ " L " ++ IEEE.to_string_fp (num_float x) ++ " "
             ++ IEEE.to_string_fp (num_float y)) /\
     x_start o' = num_float x /\ y_start o' = num_float y).
Proof.
  split; [apply line_to_each_present|].
  rewrite (bind_ok _ _ _ _ _ (start_eq x y o)).
  set (o1 := with_start _ _ _).
  assert (Hd1 : StdMap.find "d" (attr o1)
                = Some ("M " ++ num_text x ++ " " ++ num_text y))
    by apply StdMapFacts.find_assign_same.
  destruct (line_to_each_present pts o1 _ Hd1) as (o2 & Hrun & Hd2 & _ & Hm).
  rewrite (bind_ok _ _ _ _ _ Hrun).
  injection Hm as _ _ _ Hx Hy.
  rewrite to_origin_eq, (line_to_present _ _ _ _ Hd2).
  eexists. split; [reflexivity|]. simpl attr. simpl x_start. simpl y_start.
  rewrite StdMapFacts.find_assign_same, Hx, Hy.
  repeat split. f_equal. simpl. now rewrite !append_assoc.
Qed.

Lemma polyline_commands_witness :
  exists o',
    line_to_each [(NInt 1, NInt 2); (NInt 3, NInt 4)]
      (fst (Path.start (NInt 0) (NInt 0) (Path.make IEEE.NAN IEEE.NAN)))
    = (o', Ok tt) /\
    StdMap.find "d" (attr o') = Some ("M 0 0" ++ " L 1 2 L 3 4").
Proof.
  destruct (proj1 (polyline_commands
                     (fst (Path.start (NInt 0) (NInt 0)
                             (Path.make IEEE.NAN IEEE.NAN)))
                     "M 0 0" (NInt 0) (NInt 0)
                     [(NInt 1, NInt 2); (NInt 3, NInt 4)]) eq_refl)
    as (o' & Hrun & Hd & _).
  exists o'. split; [exact Hrun|exact Hd].
Defined.

(** ** [Line] and the attribute [width] *)

Lemma get_width_Line (o : Object) :
  kind o = KLine -> get_width o = Line.get_width o.
Proof. intros H. unfold get_width, bind, get. now rewrite H. Qed.

Lemma get_height_Line (o : Object) :
  kind o = KLine -> get_height o = Line.get_height o.
Proof. intros H. unfold get_height, bind, get. now rewrite H. Qed.

Lemma reads_assign_other (o : Object) (key k t : string) (v : float) :
  k <> key -> reads o k v ->
  reads (with_attr o (StdMap.assign key t (attr o))) k v.
Proof.
  intros Hne (s & Hs & Hv). exists s. split; [|exact Hv].
  simpl. now rewrite StdMapFacts.find_assign_other.
Qed.

(** X11.  On a segment node the virtual [get_width()] and [get_height()]
    are those of [Line]: they return the extents [|x2 - x1|] and
    [|y2 - y1|] and pay no regard to attributes named [width] or [height],
    whatever was set under these names. *)
Theorem Line_ignores_width_attribute (o : Object) (a c b d : float)
        (w h : value) :
  kind o = KLine -> segment o a c b d ->
  snd ((Element.set_attr "width" w ;;; Element.set_attr "height" h ;;;
        get_width) o) = Ok (f_abs (f_sub b a)) /\
  snd ((Element.set_attr "width" w ;;; Element.set_attr "height" h ;;;
        get_height) o) = Ok (f_abs (f_sub d c)).
Proof.
  intros Hk (H1 & H2 & H3 & H4).
  rewrite !(bind_ok _ _ _ _ _ (set_attr_eq _ _ _)).
  set (o1 := with_attr o _). set (o2 := with_attr o1 _).
  assert (Hseg : segment o2 a c b d).
  { unfold o2, o1. repeat split;
      apply reads_assign_other; try discriminate;
      apply reads_assign_other; try discriminate; assumption. }
  assert (Hk2 : kind o2 = KLine) by exact Hk.
  rewrite (get_width_Line o2 Hk2), (get_height_Line o2 Hk2).
  rewrite (LineFacts.get_width_eq o2 a c b d Hseg).
  rewrite (LineFacts.get_height_eq o2 a c b d Hseg).
  split; reflexivity.
Qed.

Lemma Line_ignores_width_attribute_witness :
  snd ((Element.set_attr "width" (VInt 99) ;;;
        Element.set_attr "height" (VInt 99) ;;; get_width)
         (Line_make (f_of_int 3) (f_of_int 3) (f_of_int 10) (f_of_int 0)))
  = Ok (f_abs (f_sub (f_of_int 3) (f_of_int 3))).
Proof.
  exact (proj1 (Line_ignores_width_attribute
                  (Line_make (f_of_int 3) (f_of_int 3) (f_of_int 10) (f_of_int 0))
                  (f_of_int 3) (f_of_int 10) (f_of_int 3) (f_of_int 0)
                  (VInt 99) (VInt 99) eq_refl segment_Line_make_3_10_3_0)).
Defined.

(** ** Reads of a segment whose attributes are present *)

Lemma has_endpoints_Line_make (x1 x2 y1 y2 : float) :
  has_endpoints (Line_make x1 x2 y1 y2).
Proof. repeat split; discriminate. Defined.

(** X12.  Whatever coordinates the constructor [Line(x1, x2, y1, y2)] is
    given, the node it builds holds the four endpoint attributes, and no
    read accessor changes a node that holds them, whether the read returns
    or throws on a text that is no number. *)
Theorem Line_reads_keep_constructed_node :
  (forall x1 x2 y1 y2 : float, has_endpoints (Line_make x1 x2 y1 y2)) /\
  (forall (o : Object) (percent : float),
      has_endpoints o ->
      fst (Line.x1 o) = o /\ fst (Line.x2 o) = o /\
      fst (Line.y1 o) = o /\ fst (Line.y2 o) = o /\
      fst (Line.get_width o) = o /\ fst (Line.get_height o) = o /\
      fst (Line.get_length o) = o /\ fst (Line.get_slope o) = o /\
      fst (Line.along percent o) = o).
Proof.
  split; [apply has_endpoints_Line_make|].
  intros o percent H. now apply Line_reads_keep_node.
Qed.

Lemma Line_reads_keep_constructed_node_witness :
  let l := fst (Element.set_attr "x2" (VText "wide")
                  (Line_make (f_of_int 0) (f_of_int 10) (f_of_int 0) (f_of_int 0))) in
  Line.get_width l = (l, Throw invalid_argument) /\
  fst (Line.along (ratio 1 2) l) = l.
Proof.
  intros l. split; [reflexivity|].
  assert (H : has_endpoints l) by (repeat split; discriminate).
  destruct (proj2 Line_reads_keep_constructed_node l (ratio 1 2) H)
    as (_ & _ & _ & _ & _ & _ & _ & _ & Ha).
  exact Ha.
Defined.

(** ** The slope of a vertical segment *)
Module SlopeFacts.

Lemma SFeqb_finite (s1 s2 : bool) (m1 m2 : positive) (e1 e2 : Z) :
  SFeqb (S754_finite s1 m1 e1) (S754_finite s2 m2 e2) = true ->
  s1 = s2 /\ m1 = m2 /\ e1 = e2.
Proof.
  unfold SFeqb, SFcompare.
  destruct s1, s2; try discriminate;
    destruct (Z.compare e1 e2) eqn:Ee; try discriminate;
    destruct (Pos.compare_cont Eq m1 m2) eqn:Em; try discriminate;
    intros _; apply Z.compare_eq in Ee; apply (Pos.compare_eq m1 m2) in Em;
    now subst.
Qed.

(** The difference of two [float]s that compare equal is a zero or NaN. *)
Lemma SFsub_equal (prec emax : Z) (a b : spec_float) :
  SFeqb a b = true ->
  SFsub prec emax b a = S754_nan \/ exists s, SFsub prec emax b a = S754_zero s.
Proof.
  destruct a as [sa|sa| |sa ma ea], b as [sb|sb| |sb mb eb];
    try (intros H; apply SFeqb_finite in H; destruct H as (-> & -> & ->);
         right; exists false; unfold SFsub; now rewrite Z.sub_diag);
    repeat match goal with s : bool |- _ => destruct s end;
    simpl; intros H; try discriminate H;
    first [now left | right; eexists; reflexivity].
Qed.

Lemma SFdiv_by_zero_or_nan (prec emax : Z) (x z : spec_float) :
  z = S754_nan \/ (exists s, z = S754_zero s) ->
  SFdiv prec emax x z = S754_nan \/ exists s, SFdiv prec emax x z = S754_infinity s.
Proof.
  intros [->|[s ->]].
  - left. now destruct x.
  - destruct x; simpl; try (now left); right; eexists; reflexivity.
Qed.

End SlopeFacts.

(** X13.  On a segment with [x1 == x2], in IEEE arithmetic, [get_slope()]
    does not throw and does not change the node: the division by the zero
    difference returns an infinity, or NaN when [y1 == y2] or a coordinate
    is no number, never a finite slope. *)
Theorem get_slope_vertical (o : Object) (a c b d : float) :
  segment o a c b d -> f_eq a b = true ->
  exists r,
    Line.get_slope o = (o, Ok r) /\
    (r = IEEE.NAN \/ exists s, r = S754_infinity s).
Proof.
  intros Hseg Heq. exists (slope_value a c b d). split.
  - now apply LineFacts.get_slope_eq.
  - unfold slope_value. apply SlopeFacts.SFdiv_by_zero_or_nan.
    now apply SlopeFacts.SFsub_equal.
Qed.

Lemma get_slope_vertical_witness :
  exists r,
    Line.get_slope
      (Line_make (f_of_int 3) (f_of_int 3) (f_of_int 10) (f_of_int 0))
    = (Line_make (f_of_int 3) (f_of_int 3) (f_of_int 10) (f_of_int 0), Ok r) /\
    (r = IEEE.NAN \/ exists s, r = S754_infinity s).
Proof.
  apply (get_slope_vertical _ _ _ _ _ segment_Line_make_3_10_3_0).
  reflexivity.
Defined.

Local Open Scope Z_scope.

(** ** Digits and shifts of mantissas *)
Module DigitFacts.

Lemma digits_size (p : positive) : digits2_pos p = Pos.size p.
Proof. induction p as [p IH|p IH|]; simpl; congruence. Qed.

Lemma digits_log2 (p : positive) :
  Zpos (digits2_pos p) = Z.succ (Z.log2 (Zpos p)).
Proof.
  destruct p as [p|p|]; simpl; try reflexivity;
    now rewrite Pos2Z.inj_succ, digits_size.
Qed.

Lemma digits_bounds (p : positive) :
  2 ^ (Zpos (digits2_pos p) - 1) <= Zpos p < 2 ^ Zpos (digits2_pos p).
Proof.
  rewrite digits_log2.
  replace (Z.succ (Z.log2 (Zpos p)) - 1) with (Z.log2 (Zpos p)) by lia.
  apply Z.log2_spec. lia.
Qed.

Lemma digits_unique (p : positive) (d : Z) :
  2 ^ (d - 1) <= Zpos p < 2 ^ d -> Zpos (digits2_pos p) = d.
Proof.
  intros H. rewrite digits_log2.
  assert (0 < d).
  { destruct (Z.lt_ge_cases 0 d) as [|Hd]; [assumption|].
    destruct H as [_ H]. 
    assert (2 ^ d <= 1) by (destruct (Z.eq_dec d 0) as [->|]; [simpl; lia|rewrite Z.pow_neg_r by lia; lia]).
    lia. }
  rewrite (Z.log2_unique (Zpos p) (d - 1)); [lia|lia|].
  now replace (Z.succ (d - 1)) with d by lia.
Qed.

Lemma Zdigits2_nonneg (m : Z) : 0 <= Zdigits2 m.
Proof. destruct m; simpl; lia. Qed.

Lemma Zdigits2_bounds (m : Z) :
  0 < m -> 2 ^ (Zdigits2 m - 1) <= m < 2 ^ Zdigits2 m.
Proof. destruct m as [|p|p]; try lia. intros _. apply digits_bounds. Qed.

Lemma Zdigits2_unique (m d : Z) :
  2 ^ (d - 1) <= m < 2 ^ d -> 0 < m -> Zdigits2 m = d.
Proof. destruct m as [|p|p]; try lia. intros H _. now apply digits_unique. Qed.

Lemma iter_xO (m k : positive) :
  Zpos (Pos.iter xO m k) = Zpos m * 2 ^ Zpos k.
Proof.
  induction k as [|k IH] using Pos.peano_ind.
  - simpl. lia.
  - rewrite Pos.iter_succ, Pos2Z.inj_succ, Z.pow_succ_r by lia.
    rewrite Pos2Z.inj_xO, IH. lia.
Qed.

Lemma digits_iter_xO (m k : positive) :
  Zpos (digits2_pos (Pos.iter xO m k)) = Zpos (digits2_pos m) + Zpos k.
Proof.
  induction k as [|k IH] using Pos.peano_ind.
  - simpl. lia.
  - rewrite Pos.iter_succ. simpl digits2_pos.
    rewrite Pos2Z.inj_succ, IH. lia.
Qed.

End DigitFacts.

(** ** What the rounding returns is a number of the format *)
Module RoundFacts.
Import DigitFacts.

Lemma iter_pos_iter {A : Type} (f : A -> A) (p : positive) :
  forall x, iter_pos f p x = Pos.iter f x p.
Proof.
  induction p as [p IH|p IH|]; intros x; simpl; try reflexivity.
  - now rewrite !IH, !Pos.iter_swap.
  - now rewrite !IH.
Qed.

Lemma shr_m_shr_1 (r : shr_record) :
  0 <= shr_m r -> shr_m (shr_1 r) = Z.div2 (shr_m r).
Proof.
  destruct r as [m b s]. simpl.
  destruct m as [|[p|p|]|p]; simpl; try reflexivity; lia.
Qed.

Lemma shr_m_iter (n : positive) (r : shr_record) :
  0 <= shr_m r -> shr_m (iter_pos shr_1 n r) = shr_m r / 2 ^ Zpos n.
Proof.
  intros H. rewrite iter_pos_iter.
  induction n as [|n IH] using Pos.peano_ind.
  - simpl Pos.iter. rewrite shr_m_shr_1 by exact H. now rewrite Z.div2_div.
  - rewrite Pos.iter_succ.
    assert (H0 : 0 <= shr_m (Pos.iter shr_1 r n))
      by (rewrite IH; apply Z.div_pos; [exact H|apply Z.pow_pos_nonneg; lia]).
    rewrite shr_m_shr_1 by exact H0. rewrite IH, Z.div2_div.
    rewrite Z.div_div by (try apply Z.pow_pos_nonneg; lia).
    rewrite Pos2Z.inj_succ, Z.pow_succ_r by lia.
    f_equal. lia.
Qed.

(** Shifting out [n] zero bits is exact. *)
Lemma shr_exact (K n : positive) :
  iter_pos shr_1 n (Build_shr_record (Zpos (Pos.iter xO K n)) false false)
  = Build_shr_record (Zpos K) false false.
Proof.
  rewrite iter_pos_iter.
  induction n as [|n IH] using Pos.peano_ind; [reflexivity|].
  rewrite Pos.iter_succ_r, Pos.iter_succ. exact IH.
Qed.

Lemma round_nearest_even_cases (m : Z) (l : location) :
  round_nearest_even m l = m \/ round_nearest_even m l = m + 1.
Proof.
  destruct l as [|[| |]]; simpl; auto. destruct (Z.even m); auto.
Qed.

Section Format.
Variables prec emax : Z.
Hypothesis Hprec : 0 < prec.


Lemma fexp_le (x y : Z) : x <= y -> fexp prec emax x <= fexp prec emax y.
Proof. unfold SpecFloat.fexp. lia. Qed.

Lemma fexp_succ (x : Z) : fexp prec emax (x + 1) = fexp prec emax x \/ fexp prec emax (x + 1) = fexp prec emax x + 1.
Proof. unfold SpecFloat.fexp. lia. Qed.

Lemma fexp_emin (x : Z) : emin prec emax <= fexp prec emax x.
Proof. unfold SpecFloat.fexp. lia. Qed.

Lemma div_pow2_digits (m n : Z) :
  0 < m -> 0 < n -> 0 < m / 2 ^ n ->
  Zdigits2 (m / 2 ^ n) = Zdigits2 m - n.
Proof.
  intros Hm Hn Hq.
  pose proof (Zdigits2_bounds m Hm) as [Hlo Hhi].
  pose proof (Zdigits2_nonneg m) as Hd.
  assert (Hp : 0 < 2 ^ n) by (apply Z.pow_pos_nonneg; lia).
  assert (Hnd : n < Zdigits2 m).
  { destruct (Z.lt_ge_cases n (Zdigits2 m)) as [|Hge]; [assumption|].
    assert (2 ^ Zdigits2 m <= 2 ^ n) by (apply Z.pow_le_mono_r; lia).
    rewrite Z.div_small in Hq by lia. lia. }
  apply Zdigits2_unique; [|exact Hq].
  split.
  - apply Z.div_le_lower_bound; [exact Hp|].
    rewrite <- Z.pow_add_r by lia.
    now replace (n + (Zdigits2 m - n - 1)) with (Zdigits2 m - 1) by lia.
  - apply Z.div_lt_upper_bound; [exact Hp|].
    rewrite <- Z.pow_add_r by lia.
    now replace (n + (Zdigits2 m - n)) with (Zdigits2 m) by lia.
Qed.

Lemma shr_fexp_canonical (m e : Z) (l : location) :
  0 <= m -> e <= fexp prec emax (Zdigits2 m + e) ->
  let m' := shr_m (fst (shr_fexp prec emax m e l)) in
  let e' := snd (shr_fexp prec emax m e l) in
  (0 < m' /\ fexp prec emax (Zdigits2 m' + e') = e') \/ (m' = 0 /\ e' = emin prec emax).
Proof.
  intros Hm He. cbv zeta. unfold shr_fexp, shr.
  assert (Hr : shr_m (shr_record_of_loc m l) = m)
    by (destruct l as [|[| |]]; reflexivity).
  destruct (fexp prec emax (Zdigits2 m + e) - e) as [|n|n] eqn:En; try lia.
  - simpl fst. simpl snd. rewrite Hr.
    destruct (Z.eq_dec m 0) as [->|Hne].
    + right. split; [reflexivity|]. simpl in En. unfold SpecFloat.fexp in *. lia.
    + left. split; lia.
  - simpl fst. simpl snd. rewrite shr_m_iter by lia. rewrite Hr.
    assert (Hp : 0 < 2 ^ Zpos n) by (apply Z.pow_pos_nonneg; lia).
    pose proof (Z.div_pos m (2 ^ Zpos n) Hm Hp) as Hq.
    destruct (Z.eq_dec (m / 2 ^ Zpos n) 0) as [E0|Hne].
    + right. split; [exact E0|].
      destruct (Z.eq_dec m 0) as [->|Hm0].
      * simpl in En. unfold SpecFloat.fexp in *. lia.
      * assert (Hm' : 0 < m) by lia.
        pose proof (Zdigits2_bounds m Hm') as [Hlo Hhi].
        apply Z.div_small_iff in E0; [|lia].
        destruct E0 as [E0|E0]; [|lia].
        assert (Zdigits2 m - 1 < Zpos n).
        { apply (Z.pow_lt_mono_r_iff 2); lia. }
        unfold SpecFloat.fexp in *. lia.
    + left. split; [lia|].
      assert (Hm' : 0 < m).
      { destruct (Z.eq_dec m 0) as [->|]; [|lia]. now rewrite Z.div_0_l in Hne by lia. }
      rewrite div_pow2_digits by lia.
      replace (Zdigits2 m - Zpos n + (e + Zpos n)) with (Zdigits2 m + e) by lia.
      lia.
Qed.

Lemma Zdigits2_succ (m : Z) :
  0 < m ->
  Zdigits2 (m + 1) = Zdigits2 m \/
  (Zdigits2 (m + 1) = Zdigits2 m + 1 /\ m + 1 = 2 ^ Zdigits2 m).
Proof.
  intros Hm. pose proof (Zdigits2_bounds m Hm) as [Hlo Hhi].
  pose proof (Zdigits2_nonneg m) as Hd.
  destruct (Z.eq_dec (m + 1) (2 ^ Zdigits2 m)) as [E|Hne].
  - right. split; [|exact E]. apply Zdigits2_unique; [|lia].
    replace (Zdigits2 m + 1 - 1) with (Zdigits2 m) by lia.
    rewrite E. split; [lia|].
    apply Z.pow_lt_mono_r; lia.
  - left. apply Zdigits2_unique; lia.
Qed.

(** What [binary_round_aux] returns is a number of the format. *)
Lemma binary_round_aux_valid (s : bool) (m e : Z) (l : location) :
  0 <= m -> e <= fexp prec emax (Zdigits2 m + e) ->
  valid_binary prec emax (binary_round_aux prec emax s m e l) = true.
Proof.
  intros Hm He. unfold binary_round_aux.
  pose proof (shr_fexp_canonical m e l Hm He) as Hc.
  cbv zeta in Hc.
  destruct (shr_fexp prec emax m e l) as [r e']. simpl fst in Hc. simpl snd in Hc.
  set (m1 := round_nearest_even (shr_m r) (loc_of_shr_record r)).
  assert (H1 : 0 <= m1 /\ e' <= fexp prec emax (Zdigits2 m1 + e')).
  { pose proof (round_nearest_even_cases (shr_m r) (loc_of_shr_record r)) as Hr.
    fold m1 in Hr.
    destruct Hc as [[Hpos Hcan]|[Hz Hemin]].
    - destruct Hr as [->| ->]; [split; lia|].
      split; [lia|].
      destruct (Zdigits2_succ (shr_m r) Hpos) as [->|[-> _]]; [lia|].
      pose proof (fexp_le (Zdigits2 (shr_m r) + e') (Zdigits2 (shr_m r) + 1 + e')).
      lia.
    - subst e'. split; [destruct Hr as [->| ->]; lia|apply fexp_emin]. }
  destruct H1 as [Hm1 He1].
  pose proof (shr_fexp_canonical m1 e' loc_Exact Hm1 He1) as Hc2.
  cbv zeta in Hc2.
  destruct (shr_fexp prec emax m1 e' loc_Exact) as [r2 e2].
  simpl fst in Hc2. simpl snd in Hc2.
  destruct Hc2 as [[Hpos Hcan]|[Hz Hemin]].
  - destruct (shr_m r2) as [|p|p]; try lia.
    destruct (e2 <=? emax - prec) eqn:Eb; [|reflexivity].
    unfold valid_binary, bounded, canonical_mantissa.
    change (Zdigits2 (Zpos p)) with (Zpos (digits2_pos p)) in Hcan.
    rewrite Hcan, Z.eqb_refl, Eb. reflexivity.
  - now rewrite Hz.
Qed.

Lemma binary_round_valid (s : bool) (m : positive) (e : Z) :
  valid_binary prec emax (binary_round prec emax s m e) = true.
Proof.
  unfold binary_round, shl_align.
  destruct (fexp prec emax (Zpos (digits2_pos m) + e) - e) as [|k|k] eqn:Ek.
  - apply binary_round_aux_valid; [lia|unfold Zdigits2; lia].
  - apply binary_round_aux_valid; [lia|unfold Zdigits2; lia].
  - apply binary_round_aux_valid; [lia|].
    unfold Zdigits2. rewrite digits_iter_xO.
    replace (Zpos (digits2_pos m) + Zpos k
             + fexp prec emax (Zpos (digits2_pos m) + e))
      with (Zpos (digits2_pos m) + e) by lia.
    lia.
Qed.

Lemma binary_normalize_valid (m e : Z) (sz : bool) :
  valid_binary prec emax (binary_normalize prec emax m e sz) = true.
Proof.
  destruct m; simpl; [reflexivity| |]; apply binary_round_valid.
Qed.

Lemma SFsub_valid (x y : spec_float) :
  valid_binary prec emax x = true -> valid_binary prec emax y = true ->
  valid_binary prec emax (SFsub prec emax x y) = true.
Proof.
  intros Hx Hy.
  destruct x as [sx|sx| |sx mx ex], y as [sy|sy| |sy my ey];
    try reflexivity; try exact Hx; try exact Hy;
    try (simpl; destruct sx, sy; reflexivity).
  apply binary_normalize_valid.
Qed.

Lemma SFabs_valid (x : spec_float) :
  valid_binary prec emax x = true -> valid_binary prec emax (SFabs x) = true.
Proof. now destruct x. Qed.

(** The quotient of two positive integers, rounded. *)
Lemma SFdiv_core_digits (m1 m2 : positive) :
  let '(q, e', l) := SFdiv_core_binary prec emax (Zpos m1) 0 (Zpos m2) 0 in
  0 <= q /\ e' <= fexp prec emax (Zdigits2 q + e').
Proof.
  unfold SFdiv_core_binary.
  set (d1 := Zdigits2 (Zpos m1)). set (d2 := Zdigits2 (Zpos m2)).
  rewrite !Z.add_0_r, Z.sub_0_r.
  set (e' := Z.min (fexp prec emax (d1 - d2)) 0).
  set (m' := match 0 - e' with Zpos _ => Z.shiftl (Zpos m1) (0 - e') | Z0 => Zpos m1 | Zneg _ => 0 end).
  assert (Hm' : m' = Zpos m1 * 2 ^ (- e')).
  { unfold m'. replace (0 - e') with (- e') by lia.
    destruct (- e') as [|k|k] eqn:Ek; [simpl; lia| |lia].
    rewrite Z.shiftl_mul_pow2 by lia. reflexivity. }
  pose proof (Z.div_eucl_eq m' (Zpos m2) ltac:(lia)) as Hdiv.
  pose proof (Z.mod_pos_bound m' (Zpos m2) ltac:(lia)) as Hmod.
  unfold Z.modulo in Hmod.
  destruct (Z.div_eucl m' (Zpos m2)) as [q r].
  assert (He' : e' <= 0) by (unfold e'; lia).
  assert (Hp : 0 < 2 ^ (- e')) by (apply Z.pow_pos_nonneg; lia).
  assert (Hq : 0 <= q) by nia.
  split; [exact Hq|].
  pose proof (digits_bounds m1) as [Hlo1 Hhi1].
  pose proof (digits_bounds m2) as [Hlo2 Hhi2].
  fold (Zdigits2 (Zpos m1)) in Hlo1, Hhi1. fold d1 in Hlo1, Hhi1.
  fold (Zdigits2 (Zpos m2)) in Hlo2, Hhi2. fold d2 in Hlo2, Hhi2.
  assert (Hd1 : 0 < d1) by (unfold d1; simpl; lia).
  assert (Hd2 : 0 < d2) by (unfold d2; simpl; lia).
  assert (Hdq : d1 - d2 - e' <= Zdigits2 q).
  { pose proof (Zdigits2_nonneg q) as Hn.
    destruct (Z.le_gt_cases (d1 - d2 - e') 0) as [|Hgt]; [lia|].
    (* q >= 2 ^ (d1 - 1 - e' - d2) *)
    assert (Hlow : 2 ^ (d1 - 1 - e' - d2) <= q).
    { assert (E : 2 ^ (d1 - 1) * 2 ^ (- e') = 2 ^ (d1 - 1 - e' - d2) * 2 ^ d2).
      { rewrite <- !Z.pow_add_r by lia. f_equal. lia. }
      assert (Hpp : 0 < 2 ^ (d1 - 1 - e' - d2)) by (apply Z.pow_pos_nonneg; lia).
      assert (2 ^ (d1 - 1 - e' - d2) * 2 ^ d2 <= m') by (rewrite Hm', <- E; nia).
      destruct (Z.le_gt_cases (2 ^ (d1 - 1 - e' - d2)) q) as [|Hlt]; [assumption|].
      exfalso.
      assert (q + 1 <= 2 ^ (d1 - 1 - e' - d2)) by lia.
      assert (m' < (q + 1) * Zpos m2) by lia.
      assert ((q + 1) * Zpos m2 <= 2 ^ (d1 - 1 - e' - d2) * Zpos m2) by nia.
      assert (2 ^ (d1 - 1 - e' - d2) * Zpos m2 < 2 ^ (d1 - 1 - e' - d2) * 2 ^ d2) by nia.
      lia. }
    assert (Hq0 : 0 < q).
    { assert (0 < 2 ^ (d1 - 1 - e' - d2)) by (apply Z.pow_pos_nonneg; lia). lia. }
    pose proof (Zdigits2_bounds q Hq0) as [_ Hhi].
    assert (d1 - 1 - e' - d2 < Zdigits2 q).
    { apply (Z.pow_lt_mono_r_iff 2); lia. }
    lia. }
  pose proof (fexp_le (d1 - d2) (Zdigits2 q + e') ltac:(lia)).
  unfold e' in *. lia.
Qed.

Lemma SFdiv_integers_valid (s : bool) (m1 m2 : positive) :
  valid_binary prec emax
    (SFdiv prec emax (S754_finite s m1 0) (S754_finite false m2 0)) = true.
Proof.
  unfold SFdiv. pose proof (SFdiv_core_digits m1 m2) as H.
  destruct (SFdiv_core_binary prec emax (Zpos m1) 0 (Zpos m2) 0) as [[q e'] l].
  destruct H as [Hq He]. now apply binary_round_aux_valid.
Qed.

End Format.
End RoundFacts.

(** ** Squares and roots of promoted [float]s *)
Module SquareFacts.
Import DigitFacts RoundFacts.

Section Format.
Variables prec emax : Z.

(** A mantissa already in canonical form is not rounded. *)
Lemma binary_round_aux_canonical (s : bool) (m : positive) (e : Z) :
  fexp prec emax (Zpos (digits2_pos m) + e) = e ->
  binary_round_aux prec emax s (Zpos m) e loc_Exact
  = if e <=? emax - prec then S754_finite s m e else S754_infinity s.
Proof.
  intros Hc. unfold binary_round_aux, shr_fexp. unfold Zdigits2.
  rewrite Hc, Z.sub_diag. cbn [shr shr_record_of_loc fst snd shr_m
    loc_of_shr_record round_nearest_even].
  unfold Zdigits2. now rewrite Hc, Z.sub_diag.
Qed.

(** Nor is one that reaches canonical form by dropping zero bits. *)
Lemma binary_round_aux_shift (s : bool) (K n : positive) (e : Z) :
  fexp prec emax (Zpos (digits2_pos K) + Zpos n + e) = e + Zpos n ->
  binary_round_aux prec emax s (Zpos (Pos.iter xO K n)) e loc_Exact
  = if e + Zpos n <=? emax - prec
    then S754_finite s K (e + Zpos n) else S754_infinity s.
Proof.
  intros Hc. unfold binary_round_aux, shr_fexp. unfold Zdigits2.
  rewrite digits_iter_xO, Hc.
  replace (e + Zpos n - e) with (Zpos n) by lia.
  cbn [shr shr_record_of_loc]. rewrite shr_exact.
  cbn [shr_m loc_of_shr_record round_nearest_even]. unfold Zdigits2.
  replace (Zpos (digits2_pos K) + (e + Zpos n))
    with (Zpos (digits2_pos K) + Zpos n + e) by lia.
  now rewrite Hc, Z.sub_diag.
Qed.

End Format.

Lemma sqrtrem_square (a : Z) : 0 <= a -> Z.sqrtrem (a * a) = (a, 0).
Proof.
  intros Ha. pose proof (Z.sqrtrem_spec (a * a) ltac:(nia)) as H.
  destruct (Z.sqrtrem (a * a)) as [s r]. destruct H as [E Hr].
  assert (s = a) by nia. subst s. f_equal. lia.
Qed.

(** The bounds that hold of a [float]. *)
Lemma bounded32 (m : positive) (e : Z) :
  bounded IEEE.prec32 IEEE.emax32 m e = true ->
  Zpos (digits2_pos m) <= 24 /\ -149 <= e <= 104 /\
  fexp IEEE.prec32 IEEE.emax32 (Zpos (digits2_pos m) + e) = e.
Proof.
  unfold bounded, canonical_mantissa, fexp, emin, IEEE.prec32, IEEE.emax32.
  intros H. apply andb_true_iff in H. destruct H as [Hc Hb].
  apply Z.eqb_eq in Hc. apply Z.leb_le in Hb. lia.
Qed.

(** A [float] promoted to [double]: the mantissa is moved up to 53
    digits. *)
Lemma f2d_finite (s : bool) (m : positive) (e : Z) :
  bounded IEEE.prec32 IEEE.emax32 m e = true ->
  exists k : positive,
    Zpos k = 53 - Zpos (digits2_pos m) /\
    IEEE.convert IEEE.prec64 IEEE.emax64 (S754_finite s m e)
    = S754_finite s (Pos.iter xO m k) (e - Zpos k).
Proof.
  intros Hb. destruct (bounded32 m e Hb) as (Hd & He & Hc).
  set (d := Zpos (digits2_pos m)) in *.
  assert (Hk : exists k : positive, Zpos k = 53 - d)
    by (exists (Z.to_pos (53 - d)); rewrite Z2Pos.id; lia).
  destruct Hk as [k Hk]. exists k. split; [exact Hk|].
  unfold IEEE.convert, binary_round, shl_align.
  assert (Ef : fexp IEEE.prec64 IEEE.emax64 (d + e) = e - Zpos k)
    by (unfold fexp, emin, IEEE.prec64, IEEE.emax64; lia).
  fold d. rewrite Ef.
  replace (e - Zpos k - e) with (Zneg k) by lia.
  rewrite binary_round_aux_canonical.
  - assert (Hle : (e - Zpos k <=? IEEE.emax64 - IEEE.prec64) = true)
      by (apply Z.leb_le; unfold IEEE.emax64, IEEE.prec64; lia).
    now rewrite Hle.
  - rewrite digits_iter_xO. fold d.
    replace (d + Zpos k + (e - Zpos k)) with (d + e) by lia. exact Ef.
Qed.

(** The square of a promoted [float] is exact in [double], its square root
    is the promoted [float] again, and that converts back to the [float]. *)
Lemma sqrt_square_finite (m : positive) (e : Z) :
  bounded IEEE.prec32 IEEE.emax32 m e = true ->
  let x := IEEE.convert IEEE.prec64 IEEE.emax64 (S754_finite false m e) in
  SFsqrt IEEE.prec64 IEEE.emax64
    (SFadd IEEE.prec64 IEEE.emax64 (S754_zero false)
       (SFmul IEEE.prec64 IEEE.emax64 x x)) = x /\
  IEEE.convert IEEE.prec32 IEEE.emax32 x = S754_finite false m e.
Proof.
  intros Hb. destruct (bounded32 m e Hb) as (Hd & He & Hc).
  destruct (f2d_finite false m e Hb) as (k & Hk & ->). cbv zeta.
  set (d := Zpos (digits2_pos m)) in *.
  set (M := Pos.iter xO m k). set (E := e - Zpos k).
  assert (HM : Zpos M = Zpos m * 2 ^ Zpos k) by apply iter_xO.
  assert (HdM : Zpos (digits2_pos M) = 53)
    by (unfold M; rewrite digits_iter_xO; fold d; lia).
  pose proof (digits_bounds M) as HbM. rewrite HdM in HbM.
  change (2 ^ (53 - 1)) with (2 ^ 52) in HbM.
  (* the digits of the square *)
  set (dd := Zpos (digits2_pos (M * M))).
  assert (Hdd : dd = 105 \/ dd = 106).
  { pose proof (digits_bounds (M * M)) as Hsq. fold dd in Hsq.
    rewrite Pos2Z.inj_mul in Hsq.
    assert (H104 : 2 ^ 104 <= Zpos M * Zpos M)
      by (change (2 ^ 104) with (2 ^ 52 * 2 ^ 52); nia).
    assert (H106 : Zpos M * Zpos M < 2 ^ 106)
      by (change (2 ^ 106) with (2 ^ 53 * 2 ^ 53); nia).
    assert (104 < dd) by (apply (Z.pow_lt_mono_r_iff 2); lia).
    assert (dd - 1 < 106) by (apply (Z.pow_lt_mono_r_iff 2); lia).
    lia. }
  assert (Hn : exists n : positive, Zpos n = dd - 53)
    by (exists (Z.to_pos (dd - 53)); rewrite Z2Pos.id; lia).
  destruct Hn as [n Hn].
  assert (Hj : exists j : positive, Zpos j = 2 * Zpos k - Zpos n)
    by (exists (Z.to_pos (2 * Zpos k - Zpos n)); rewrite Z2Pos.id; lia).
  destruct Hj as [j Hj].
  set (K := Pos.iter xO (m * m)%positive j).
  assert (HK : Zpos K = Zpos m * Zpos m * 2 ^ Zpos j)
    by (unfold K; rewrite iter_xO, Pos2Z.inj_mul; reflexivity).
  assert (Hsq : (M * M)%positive = Pos.iter xO K n).
  { apply Pos2Z.inj. rewrite iter_xO, Pos2Z.inj_mul, HK, HM.
    assert (E2 : 2 ^ Zpos k * 2 ^ Zpos k = 2 ^ Zpos j * 2 ^ Zpos n)
      by (rewrite <- !Z.pow_add_r by lia; f_equal; lia).
    transitivity (Zpos m * Zpos m * (2 ^ Zpos k * 2 ^ Zpos k)); [ring|].
    rewrite E2. ring. }
  assert (HdK : Zpos (digits2_pos K) = 53).
  { pose proof (digits_iter_xO K n) as H. rewrite <- Hsq in H. fold dd in H. lia. }
  split.
  - (* the square *)
    unfold SFmul. cbn [xorb]. rewrite Hsq.
    rewrite (binary_round_aux_shift IEEE.prec64 IEEE.emax64 false K n (E + E)).
    2:{ rewrite HdK. unfold fexp, emin, IEEE.prec64, IEEE.emax64. unfold E. lia. }
    assert (Hle : (E + E + Zpos n <=? IEEE.emax64 - IEEE.prec64) = true)
      by (apply Z.leb_le; unfold IEEE.emax64, IEEE.prec64, E; lia).
    rewrite Hle. cbn [SFadd].
    (* the root *)
    unfold SFsqrt, SFsqrt_core_binary. unfold Zdigits2. rewrite HdK.
    assert (He' : Z.min (fexp IEEE.prec64 IEEE.emax64
                           (Z.div2 (53 + (E + E + Zpos n) + 1)))
                        (Z.div2 (E + E + Zpos n)) = E).
    { rewrite !Z.div2_div. unfold fexp, emin, IEEE.prec64, IEEE.emax64.
      destruct Hdd as [Hdd|Hdd]; rewrite Hdd in Hn.
      - replace (Zpos n) with 52 by lia.
        replace (53 + (E + E + 52) + 1) with ((E + 53) * 2) by lia.
        replace (E + E + 52) with ((E + 26) * 2) by lia.
        rewrite !Z.div_mul by lia. unfold E. lia.
      - replace (Zpos n) with 53 by lia.
        replace (53 + (E + E + 53) + 1) with (1 + (E + 53) * 2) by lia.
        replace (E + E + 53) with (1 + (E + 26) * 2) by lia.
        rewrite !Z.div_add by lia. change (1 / 2) with 0. unfold E. lia. }
    rewrite He'.
    replace (E + E + Zpos n - 2 * E) with (Zpos n) by lia.
    rewrite Z.shiftl_mul_pow2 by lia.
    replace (Zpos K * 2 ^ Zpos n) with (Zpos M * Zpos M)
      by (rewrite <- Pos2Z.inj_mul, Hsq; apply iter_xO).
    rewrite sqrtrem_square by lia. cbn [Z.eqb].
    rewrite binary_round_aux_canonical.
    + assert (Hle2 : (E <=? IEEE.emax64 - IEEE.prec64) = true)
        by (apply Z.leb_le; unfold IEEE.emax64, IEEE.prec64, E; lia).
      now rewrite Hle2.
    + rewrite HdM. unfold fexp, emin, IEEE.prec64, IEEE.emax64, E. lia.
  - (* back to float *)
    unfold IEEE.convert, binary_round, shl_align. rewrite HdM.
    replace (53 + E) with (d + e) by (unfold E; lia). rewrite Hc.
    replace (e - E) with (Zpos k) by (unfold E; lia).
    unfold M.
    rewrite (binary_round_aux_shift IEEE.prec32 IEEE.emax32 false m k E).
    2:{ fold d. replace (d + Zpos k + E) with (d + e) by (unfold E; lia).
        rewrite Hc. unfold E. lia. }
    replace (E + Zpos k) with e by (unfold E; lia).
    assert (Hle : (e <=? IEEE.emax32 - IEEE.prec32) = true)
      by (apply Z.leb_le; unfold IEEE.emax32, IEEE.prec32; lia).
    now rewrite Hle.
Qed.

End SquareFacts.

Local Close Scope Z_scope.

(** ** The length of a vertical segment *)
Module LengthFacts.
Import RoundFacts SquareFacts.

(** What [std::stof] returns is a [float]. *)
Lemma std_stof_valid (s : string) (v : spec_float) :
  IEEE.std_stof s = Ok v -> valid_binary IEEE.prec32 IEEE.emax32 v = true.
Proof.
  assert (Hc : forall neg num den,
             IEEE.checked IEEE.prec32 IEEE.emax32 neg num den = Ok v ->
             valid_binary IEEE.prec32 IEEE.emax32 v = true).
  { intros neg num den. unfold IEEE.checked, IEEE.round_ratio.
    pose proof (SFdiv_integers_valid IEEE.prec32 IEEE.emax32 eq_refl neg num den)
      as Hv.
    destruct (SFdiv _ _ _ _) as [z|z| |z m e]; try discriminate.
    destruct (_ && _)%bool; [discriminate|]. now intros [= <-]. }
  unfold IEEE.std_stof. destruct (Strtof.parse s) as [l|]; [|discriminate].
  destruct l as [neg [|m] e10|neg [|m] e2|neg|]; simpl;
    try (intros [= <-]; reflexivity);
    match goal with |- context [(0 <=? ?e)%Z] => destruct (0 <=? e)%Z end;
    apply Hc.
Qed.

(** The length computed from a width of zero and a height that is a
    [float] is the height. *)
Lemma length_of_height (h : spec_float) :
  valid_binary IEEE.prec32 IEEE.emax32 h = true ->
  SFabs h = h ->
  d2f (d_sqrt (d_add (Line.pow2 (f2d (S754_zero false))) (Line.pow2 (f2d h))))
  = h.
Proof.
  intros Hv Ha.
  destruct h as [s|s| |s m e]; try (injection Ha as <-; reflexivity);
    [reflexivity|].
  injection Ha as <-.
  destruct (sqrt_square_finite m e Hv) as [Hs Hc].
  unfold Line.pow2. cbn [d2f d_sqrt d_add d_mul f2d IEEE.arith].
  change (IEEE.convert IEEE.prec64 IEEE.emax64 (S754_zero false))
    with (S754_zero false).
  change (SFmul IEEE.prec64 IEEE.emax64 (S754_zero false) (S754_zero false))
    with (S754_zero false).
  cbv zeta in Hs, Hc. rewrite Hs. exact Hc.
Qed.

(** Two finite [float]s that compare equal differ by a zero. *)
Lemma SFsub_equal_finite (prec emax : Z) (a b : spec_float) :
  SFeqb a b = true -> (forall s, a <> S754_infinity s) ->
  exists s, SFsub prec emax b a = S754_zero s.
Proof.
  intros H Hinf.
  destruct (SlopeFacts.SFsub_equal prec emax a b H) as [Hn|Hz]; [|exact Hz].
  exfalso.
  destruct a as [sa|sa| |sa ma ea], b as [sb|sb| |sb mb eb];
    try discriminate H; try (now apply (Hinf sa));
    try (destruct sa, sb; discriminate).
  apply SlopeFacts.SFeqb_finite in H. destruct H as (-> & -> & ->).
  unfold SFsub in Hn. rewrite Z.sub_diag in Hn. discriminate.
Qed.

End LengthFacts.

(** X14.  In IEEE arithmetic, on a vertical segment whose [x1] is finite,
    [get_length()] returns the [float] that [get_height()] returns,
    [|y2 - y1|] (no number when that is no number): the squares are exact
    in [double] and the root and the conversion back to [float] lose
    nothing.  So [along(fraction)] is
    [(x1, y1 - fraction * |y2 - y1|)] when [y1 > y2] and
    [(x1, y1 + fraction * |y2 - y1|)] otherwise, each of the three
    operations rounded once, for every fraction. *)
Theorem along_vertical_length_is_height (o : Object) (a c b d : float) :
  segment o a c b d -> f_eq a b = true ->
  (forall s, a <> S754_infinity s) ->
  let h := f_abs (f_sub d c) in
  Line.get_height o = (o, Ok h) /\
  Line.get_length o = (o, Ok h) /\
  forall fraction : float,
    Line.along fraction o
    = (o, Ok (a, if Line.f_gt c d
                 then f_sub c (f_mul fraction h)
                 else f_add c (f_mul fraction h))).
Proof.
  intros Hseg Heq Hfin h.
  assert (Hc : valid_binary IEEE.prec32 IEEE.emax32 c = true).
  { destruct Hseg as (_ & (s & _ & Hs) & _). now apply (LengthFacts.std_stof_valid s). }
  assert (Hd : valid_binary IEEE.prec32 IEEE.emax32 d = true).
  { destruct Hseg as (_ & _ & _ & (s & _ & Hs)). now apply (LengthFacts.std_stof_valid s). }
  assert (Hh : valid_binary IEEE.prec32 IEEE.emax32 h = true).
  { apply RoundFacts.SFabs_valid, RoundFacts.SFsub_valid; [reflexivity|exact Hd|exact Hc]. }
  assert (Hlen : length_value a c b d = h).
  { unfold length_value, width_value, height_value. fold h.
    destruct (LengthFacts.SFsub_equal_finite IEEE.prec32 IEEE.emax32 a b Heq Hfin)
      as [s Hs].
    cbn [f_abs f_sub IEEE.arith]. rewrite Hs. cbn [SFabs].
    apply LengthFacts.length_of_height; [exact Hh|].
    unfold h. cbn [f_abs f_sub IEEE.arith]. now destruct (SFsub _ _ d c). }
  split; [apply (LineFacts.get_height_eq o a c b d Hseg)|].
  split.
  - rewrite (LineFacts.get_length_eq o a c b d Hseg). now rewrite Hlen.
  - intros fraction.
    rewrite (LineFacts.along_eq o a c b d Hseg). unfold along_value.
    rewrite Heq, Hlen. cbn [negb]. now destruct (Line.f_gt c d).
Qed.

Lemma along_vertical_length_is_height_witness :
  let l := Line_make (f_of_int 3) (f_of_int 3) (f_of_int 10) (f_of_int 0) in
  let h := f_abs (f_sub (f_of_int 0) (f_of_int 10)) in
  Line.get_height l = (l, Ok h) /\
  Line.get_length l = (l, Ok h) /\
  forall fraction : float,
    Line.along fraction l
    = (l, Ok (f_of_int 3,
              if Line.f_gt (f_of_int 10) (f_of_int 0)
              then f_sub (f_of_int 10) (f_mul fraction h)
              else f_add (f_of_int 10) (f_mul fraction h))).
Proof.
  apply (along_vertical_length_is_height _ _ _ _ _ segment_Line_make_3_10_3_0).
  - reflexivity.
  - discriminate.
Defined.

(** ** The sign of the fraction *)
Module SignFacts.

(** Rounding to nearest, ties to even, does not look at the sign. *)
Lemma binary_round_aux_opp (prec emax : Z) (s : bool) (m e : Z) (l : location) :
  SFopp (binary_round_aux prec emax s m e l)
  = binary_round_aux prec emax (negb s) m e l.
Proof.
  unfold binary_round_aux.
  destruct (shr_fexp prec emax m e l) as [mrs' e'].
  destruct (shr_fexp prec emax _ e' loc_Exact) as [mrs'' e''].
  destruct (shr_m mrs'') as [|q|q]; try reflexivity.
  now destruct (Z.leb e'' (emax - prec)).
Qed.

Lemma SFmul_opp_l (prec emax : Z) (x y : spec_float) :
  SFmul prec emax (SFopp x) y = SFopp (SFmul prec emax x y).
Proof.
  destruct x as [sx|sx| |sx mx ex], y as [sy|sy| |sy my ey]; simpl;
    try reflexivity; try (now destruct sx, sy).
  rewrite binary_round_aux_opp. f_equal. now destruct sx, sy.
Qed.

Lemma convert_opp (prec emax : Z) (x : spec_float) :
  IEEE.convert prec emax (SFopp x) = SFopp (IEEE.convert prec emax x).
Proof.
  destruct x as [s|s| |s m e]; try reflexivity.
  simpl. unfold binary_round.
  destruct (shl_align m e _) as [mz ez].
  now rewrite binary_round_aux_opp.
Qed.

Lemma SFmul_opp_opp (prec emax : Z) (x : spec_float) :
  SFmul prec emax (SFopp x) (SFopp x) = SFmul prec emax x x.
Proof.
  destruct x as [s|s| |s m e]; simpl; try reflexivity; now destruct s.
Qed.

(** The square in [double] of [-fraction * length] is that of
    [fraction * length]. *)
Lemma pow2_opp (fraction len : float) :
  Line.pow2 (f2d (f_mul (SFopp fraction) len))
  = Line.pow2 (f2d (f_mul fraction len)).
Proof.
  unfold Line.pow2. cbn [f2d f_mul d_mul IEEE.arith].
  now rewrite SFmul_opp_l, convert_opp, SFmul_opp_opp.
Qed.

End SignFacts.

(** X16.  In IEEE arithmetic, on a segment whose [x1] and [x2] read as
    different [float]s, the sign of the fraction is lost: [along(-fraction)]
    returns the pair of [float]s [along(fraction)] returns (a coordinate
    that is no number in the one is no number in the other), the fraction
    entering the offset only through the square of [fraction * length].  A
    negative fraction therefore does not give a point before the first
    endpoint. *)
Theorem along_ignores_sign (o : Object) (a c b d fraction : float) :
  segment o a c b d -> f_eq a b = false ->
  Line.along (SFopp fraction) o = Line.along fraction o.
Proof.
  intros Hseg Hab.
  rewrite !(LineFacts.along_eq o a c b d Hseg).
  unfold along_value. rewrite Hab. cbn [negb].
  unfold discrim_value. now rewrite SignFacts.pow2_opp.
Qed.

Lemma segment_Line_make_0_0_3_7 :
  segment (Line_make (f_of_int 0) (f_of_int 3) (f_of_int 0) (f_of_int 7))
          (f_of_int 0) (f_of_int 0) (f_of_int 3) (f_of_int 7).
Proof.
  repeat split; eexists; (split; [reflexivity|]); reflexivity.
Defined.

Lemma along_ignores_sign_witness :
  Line.along (SFopp (ratio 1 2))
    (Line_make (f_of_int 0) (f_of_int 3) (f_of_int 0) (f_of_int 7))
  = Line.along (ratio 1 2)
      (Line_make (f_of_int 0) (f_of_int 3) (f_of_int 0) (f_of_int 7)).
Proof.
  apply (along_ignores_sign _ _ _ _ _ (ratio 1 2) segment_Line_make_0_0_3_7).
  reflexivity.
Defined.
